(** * Pairwise iteration adaptors of cpptricks ([pairwise_iterator.h])

    A shallow embedding of the two view classes of namespace
    [PairwiseIterator]:

    - [internal_pairs]: all unique pairs of one container (a triangular
      matrix without its trace);
    - [cartesian_product]: all ordered pairs between two iterator ranges.

    Containers are modelled as lists. A container iterator is the offset
    of its element from [begin()], so that [std::next] and [std::prev]
    add and subtract one, as pointer arithmetic does on the contiguous
    containers [std::vector] and [std::array]; nothing checks that an
    iterator stays inside its container, as nothing does in the source.
    A reference is the offset of an element in the storage of its
    container, read with [load] and assigned with [store]. [size_t] and
    [ptrdiff_t] are integers reduced to a word of [w] bits. Loops carry
    fuel: a loop that has not met its end within the fuel returns
    [None]. *)

From stdpp Require Import base numbers option list list_numbers list_monad.

Local Open Scope Z_scope.

(** ** Machine integers *)

Section machine.
Variable w : nat.

Definition modulus : Z := 2 ^ Z.of_nat w.

(** Conversion of a mathematical integer to [size_t] (unsigned, [w] bits). *)
Definition to_size_t (x : Z) : Z := x mod modulus.

(** Conversion to [ptrdiff_t] (two's complement, [w] bits). The C++
    standard leaves signed overflow undefined; the model wraps, as the
    hardware does. *)
Definition to_ptrdiff_t (x : Z) : Z :=
  (x + modulus / 2) mod modulus - modulus / 2.

Definition size_t_sub (a b : Z) : Z := to_size_t (a - b).
Definition size_t_mul (a b : Z) : Z := to_size_t (a * b).
Definition size_t_div (a b : Z) : Z := a / b.
Definition ptrdiff_t_mul (a b : Z) : Z := to_ptrdiff_t (a * b).
End machine.

(** ** Containers, iterators and references *)

(** A container iterator is an offset from [begin()]. *)
Definition iter : Type := Z.
(** A reference to an element is the offset of that element in the storage. *)
Definition reference : Type := Z.

Definition std_next (it : iter) : iter := it + 1.
Definition std_prev (it : iter) : iter := it - 1.
(** [std::distance] on container iterators, a [ptrdiff_t]. *)
Definition iter_distance (first last : iter) : Z := last - first.

Section container.
Context {A : Type}.

Definition vec_begin (vec : list A) : iter := 0.
Definition vec_end (vec : list A) : iter := Z.of_nat (length vec).
Definition vec_size (vec : list A) : Z := Z.of_nat (length vec).

(** Reading through a reference; nothing is read outside the storage. *)
Definition load (vec : list A) (r : reference) : option A :=
  if bool_decide (0 <= r) then vec !! Z.to_nat r else None.

(** Assigning through a reference. A write outside the storage is
    undefined in C++; the model leaves the storage as it is. *)
Definition store (vec : list A) (r : reference) (v : A) : list A :=
  if bool_decide (0 <= r) then <[Z.to_nat r := v]> vec else vec.
End container.

(** ** The forward-iterator protocol and the generic algorithms over it *)

Class ForwardIterator (It : Type) := {
  value_type : Type;
  op_star : It -> value_type;
  op_ne : It -> It -> bool;
  op_inc : It -> It
}.

Section algorithms.
Context {It : Type} `{ForwardIterator It}.

(** Positions are equal when [!=] says they are not different. *)
Definition op_eq (p q : It) : bool := negb (op_ne p q).

(** [std::advance(it, n)] on a forward iterator: [n] unit advances. *)
Fixpoint std_advance (n : nat) (it : It) : It :=
  match n with
  | O => it
  | S n' => std_advance n' (op_inc it)
  end.

(** [for (auto p : range) body(p)]: the views handed to the body, in
    order. [None] when the loop has not met [last] within [fuel] tests. *)
Fixpoint range_for (fuel : nat) (first last : It) : option (list value_type) :=
  match fuel with
  | O => None
  | S fuel' =>
      if op_ne first last
      then cons (op_star first) <$> range_for fuel' (op_inc first) last
      else Some []
  end.

(** [std::distance(first, last)] on forward iterators. *)
Fixpoint std_distance (fuel : nat) (first last : It) : option nat :=
  match fuel with
  | O => None
  | S fuel' =>
      if op_ne first last
      then S <$> std_distance fuel' (op_inc first) last
      else Some O
  end.

(** [std::accumulate(first, last, init, op)]. *)
Fixpoint std_accumulate {B : Type} (fuel : nat) (first last : It)
    (init : B) (op : B -> value_type -> B) : option B :=
  match fuel with
  | O => None
  | S fuel' =>
      if op_ne first last
      then std_accumulate fuel' (op_inc first) last (op init (op_star first)) op
      else Some init
  end.
End algorithms.

(** ** [internal_pairs] *)

Module internal_pairs.

Record iterator : Type := Iterator { _end : iter; i : iter; j : iter }.

(** [operator*]: the tuple of references [{*i, *j}]. *)
Definition operator_star (it : iterator) : reference * reference :=
  (it.(i), it.(j)).

(** [operator!=]: [(i != other.i) or (j != other.j)]. *)
Definition operator_ne (it other : iterator) : bool :=
  negb (it.(i) =? other.(i)) || negb (it.(j) =? other.(j)).

(** [operator++]: [if (++j == _end) j = std::next(++i);]. *)
Definition operator_inc (it : iterator) : iterator :=
  let j' := std_next it.(j) in
  if j' =? it.(_end)
  then let i' := std_next it.(i) in
       {| _end := it.(_end); i := i'; j := std_next i' |}
  else {| _end := it.(_end); i := it.(i); j := j' |}.

#[global] Instance forward_iterator : ForwardIterator iterator := {|
  value_type := reference * reference;
  op_star := operator_star;
  op_ne := operator_ne;
  op_inc := operator_inc
|}.

Section adaptor.
Context {A : Type}.

(** [begin()]: [iterator(vec.end(), vec.begin(), std::next(vec.begin()))]. *)
Definition begin (vec : list A) : iterator :=
  Iterator (vec_end vec) (vec_begin vec) (std_next (vec_begin vec)).

(** [end()]: [iterator(vec.end(), std::prev(vec.end()), vec.end())]. *)
Definition end_ (vec : list A) : iterator :=
  Iterator (vec_end vec) (std_prev (vec_end vec)) (vec_end vec).

(** [size()]: [vec.size() * (vec.size() - 1) / 2] in [size_t]. *)
Definition size (w : nat) (vec : list A) : Z :=
  size_t_div
    (size_t_mul w (vec_size vec) (size_t_sub w (vec_size vec) 1)) 2.

(** The pair of elements a pair-view refers to. *)
Definition view (vec : list A) (p : reference * reference) : option (A * A) :=
  x ← load vec p.1; y ← load vec p.2; Some (x, y).

(** [std::get<0>(p) = v]: assignment through the first reference. *)
Definition assign_first (vec : list A) (p : reference * reference) (v : A)
  : list A := store vec p.1 v.
End adaptor.

End internal_pairs.

(** The test's [auto [i, j] = *pairs.begin(); i = v;] followed by a read
    of [vec.front()]. *)
Definition assign_first_front {A : Type} (vec : list A) (v : A) : option A :=
  load (internal_pairs.assign_first vec
          (internal_pairs.operator_star (internal_pairs.begin vec)) v)
       (vec_begin vec).

(** ** [cartesian_product] *)

Module cartesian_product.

Record iterator : Type := Iterator_ {
  pos1 : iter; last1 : iter; pos2 : iter; first2 : iter; last2 : iter
}.

(** The constructor [iterator(first1, last1, first2, last2)]. *)
Definition Iterator (first1 last1 first2 last2 : iter) : iterator :=
  {| pos1 := first1; last1 := last1;
     pos2 := first2; first2 := first2; last2 := last2 |}.

(** [operator*]: the tuple of references [{*pos1, *pos2}]. *)
Definition operator_star (it : iterator) : reference * reference :=
  (it.(pos1), it.(pos2)).

(** [operator!=]: [(pos1 != other.pos1) or (pos2 != other.pos2)]. *)
Definition operator_ne (it other : iterator) : bool :=
  negb (it.(pos1) =? other.(pos1)) || negb (it.(pos2) =? other.(pos2)).

(** [operator++]:
    [if (++pos2 == last2) { pos2 = first2; pos1++;
                            if (pos1 == last1) pos2 = last2; }]. *)
Definition operator_inc (it : iterator) : iterator :=
  let p2 := std_next it.(pos2) in
  if p2 =? it.(last2)
  then let p1 := std_next it.(pos1) in
       if p1 =? it.(last1)
       then {| pos1 := p1; last1 := it.(last1);
               pos2 := it.(last2); first2 := it.(first2); last2 := it.(last2) |}
       else {| pos1 := p1; last1 := it.(last1);
               pos2 := it.(first2); first2 := it.(first2); last2 := it.(last2) |}
  else {| pos1 := it.(pos1); last1 := it.(last1);
          pos2 := p2; first2 := it.(first2); last2 := it.(last2) |}.

#[global] Instance forward_iterator : ForwardIterator iterator := {|
  value_type := reference * reference;
  op_star := operator_star;
  op_ne := operator_ne;
  op_inc := operator_inc
|}.

(** The adaptor: its two data members. *)
Record t : Type := Adaptor { _begin : iterator; _end : iterator }.

(** [size()]: [std::distance(_begin.pos1, _begin.last1) *
    std::distance(_begin.first2, _begin.last2)], a product of two
    [ptrdiff_t] returned as [size_t]. *)
Definition size (w : nat) (c : t) : Z :=
  to_size_t w
    (ptrdiff_t_mul w
       (iter_distance c.(_begin).(pos1) c.(_begin).(last1))
       (iter_distance c.(_begin).(first2) c.(_begin).(last2))).

(** The constructor: both members are initialised, then the guard
    [if (size() == 0) _begin = _end;] runs. *)
Definition make (w : nat) (first1 last1 first2 last2 : iter) : t :=
  let c := {| _begin := Iterator first1 last1 first2 last2;
              _end := Iterator last1 last1 last2 last2 |} in
  if size w c =? 0
  then {| _begin := c.(_end); _end := c.(_end) |}
  else c.

Definition begin (c : t) : iterator := c.(_begin).
Definition end_ (c : t) : iterator := c.(_end).

(** The adaptor over two whole containers:
    [cartesian_product(v1.begin(), v1.end(), v2.begin(), v2.end())]. *)
Definition over {A B : Type} (w : nat) (vec1 : list A) (vec2 : list B) : t :=
  make w (vec_begin vec1) (vec_end vec1) (vec_begin vec2) (vec_end vec2).

(** The pair of elements a pair-view refers to. *)
Definition view {A B : Type} (vec1 : list A) (vec2 : list B)
    (p : reference * reference) : option (A * B) :=
  x ← load vec1 p.1; y ← load vec2 p.2; Some (x, y).

End cartesian_product.

(** ** Positions a loop can reach *)

(** Advancing is undefined once a position equals [last]: the positions
    reached from [first] are those obtained by unit advances of positions
    that still differ from [last]. *)
Inductive reachable {It : Type} `{ForwardIterator It} (first last : It)
  : It -> Prop :=
| reachable_first : reachable first last first
| reachable_inc it :
    reachable first last it -> op_ne it last = true ->
    reachable first last (op_inc it).

(** ** The orders the specification names *)

(** Row-major order on index pairs: (0,0),(0,1),...,(0,n2-1),(1,0),...,
    (n1-1,n2-1), the second index varying fastest. *)
Definition row_major (n1 n2 : Z) : list (Z * Z) :=
  cprod (seqZ 0 n1) (seqZ 0 n2).

(** Row-major triangular order: the pairs (a,b) with a < b, in row-major
    order. *)
Definition triangular (n : Z) : list (Z * Z) :=
  filter (fun p : Z * Z => p.1 < p.2) (row_major n n).

(** All pairs of elements of one list, earlier element first, as Python's
    [itertools.combinations(vec, 2)] lists them. *)
Fixpoint combinations {A : Type} (vec : list A) : list (A * A) :=
  match vec with
  | [] => []
  | x :: xs => (pair x <$> xs) ++ combinations xs
  end.

(** One row of the triangle, and the part of the triangle that starts at
    the pair (a,b). *)
Definition row (n a : Z) : list (Z * Z) :=
  pair a <$> seqZ (a + 1) (n - (a + 1)).

Definition rows (n a r : Z) : list (Z * Z) :=
  mjoin (row n <$> seqZ a r).

Definition triangle_from (n a b : Z) : list (Z * Z) :=
  (pair a <$> seqZ b (n - b)) ++ rows n (a + 1) (n - 1 - (a + 1)).

(** The part of the row-major product that starts at the pair (a,b) when
    the second index ranges over [f2, l2) and the first ends at l1. *)
Definition product_from (l1 f2 l2 a b : Z) : list (Z * Z) :=
  (pair a <$> seqZ b (l2 - b)) ++ cprod (seqZ (a + 1) (l1 - (a + 1))) (seqZ f2 (l2 - f2)).

(** ** The index pairs of the test [internal_pairs_index] *)

(** [views::ints(a, b)]: the integers of the half-open range from [a]
    to [b]. *)
Definition views_ints (a b : Z) : list Z := seqZ a (b - a).

(** [views::repeat_n(x, n)]: [n] copies of [x]. *)
Definition views_repeat_n {A : Type} (x : A) (n : Z) : list A :=
  replicate (Z.to_nat n) x.

(** [views::for_each(rng, f)], each [f] result handed over by
    [yield_from]: the ranges [f] gives, one after the other. *)
Definition views_for_each {A B : Type} (rng : list A) (f : A -> list B)
  : list B := rng ≫= f.

(** The index pairs for a container of [n] elements:
    [i = for_each(ints(0, n > 0 ? n - 1 : 0), repeat_n(i, n - 1 - i))],
    [j = ints(0, n > 0 ? n - 1 : 0) | for_each(ints(i + 1, n))] and
    [pairs = zip(i, j)]. *)
Definition internal_pairs_index (n : Z) : list (Z * Z) :=
  let i := views_for_each (views_ints 0 (if 0 <? n then n - 1 else 0))
             (fun i => views_repeat_n i (n - 1 - i)) in
  let j := views_for_each (views_ints 0 (if 0 <? n then n - 1 else 0))
             (fun i => views_ints (i + 1) n) in
  zip i j.

(** ** Machine arithmetic *)

Lemma modulus_pos (w : nat) : 0 < modulus w.
Proof. unfold modulus. apply Z.pow_pos_nonneg; lia. Qed.

Lemma to_size_t_small (w : nat) (x : Z) :
  0 <= x < modulus w -> to_size_t w x = x.
Proof. intros Hx. unfold to_size_t. by apply Z.mod_small. Qed.

Lemma to_size_t_ptrdiff_t (w : nat) (x : Z) :
  to_size_t w (to_ptrdiff_t w x) = x mod modulus w.
Proof.
  unfold to_size_t, to_ptrdiff_t.
  rewrite Zminus_mod_idemp_l.
  f_equal. lia.
Qed.

Lemma pronic_even (n : Z) : n * (n - 1) = 2 * (n * (n - 1) / 2).
Proof.
  destruct (Z.Even_or_Odd n) as [[k ->]|[k ->]].
  - replace (2 * k * (2 * k - 1)) with ((k * (2 * k - 1)) * 2) by lia.
    rewrite Z.div_mul by lia. lia.
  - replace ((2 * k + 1) * (2 * k + 1 - 1)) with (((2 * k + 1) * k) * 2) by lia.
    rewrite Z.div_mul by lia. lia.
Qed.

(** ** The generic algorithms *)

Section algorithms_facts.
Context {It : Type} `{ForwardIterator It}.

Lemma range_for_stop (fuel : nat) (first last : It) :
  op_ne first last = false -> range_for (S fuel) first last = Some [].
Proof. intros Hne. simpl. by rewrite Hne. Qed.

Lemma range_for_step (fuel : nat) (first last : It) :
  op_ne first last = true ->
  range_for (S fuel) first last
  = cons (op_star first) <$> range_for fuel (op_inc first) last.
Proof. intros Hne. simpl. by rewrite Hne. Qed.


(** [std::distance] counts the views a range-for loop hands to its body. *)
Lemma std_distance_range_for (fuel : nat) (first last : It) :
  std_distance fuel first last = length <$> range_for fuel first last.
Proof.
  revert first. induction fuel as [|fuel IH]; intros first; [done|].
  simpl. destruct (op_ne first last); [|done].
  rewrite IH. by destruct (range_for fuel (op_inc first) last).
Qed.

(** [std::accumulate] is the left fold over those views. *)
Lemma std_accumulate_range_for {B : Type} (fuel : nat) (first last : It)
    (init : B) (op : B -> value_type -> B) :
  std_accumulate fuel first last init op
  = foldl op init <$> range_for fuel first last.
Proof.
  revert first init. induction fuel as [|fuel IH]; intros first init; [done|].
  simpl. destruct (op_ne first last); [|done].
  rewrite IH. by destruct (range_for fuel (op_inc first) last).
Qed.

(** A loop that ends after handing out [vs] has met [last] after exactly
    [length vs] unit advances and not before; the [k]-th view is the one
    of the position [k] advances after [first]. *)
Lemma range_for_advance (fuel : nat) (first last : It) vs :
  range_for fuel first last = Some vs ->
  op_ne (std_advance (length vs) first) last = false /\
  forall k : nat, (k < length vs)%nat ->
    op_ne (std_advance k first) last = true /\
    vs !! k = Some (op_star (std_advance k first)).
Proof.
  revert first vs. induction fuel as [|fuel IH]; intros first vs Hrun; [done|].
  simpl in Hrun. destruct (op_ne first last) eqn:Hne.
  - destruct (range_for fuel (op_inc first) last) as [ws|] eqn:Hws; [|done].
    simpl in Hrun. injection Hrun as <-.
    destruct (IH _ _ Hws) as [Hend Hbefore]. split; [done|].
    intros [|k] Hk; [done|]. simpl in *. apply Hbefore. lia.
  - injection Hrun as <-. split; [done|]. simpl. lia.
Qed.

(** The positions a loop reaches are the advances of [first] up to the
    first one equal to [last]. *)
Lemma reachable_advance (first last it : It) :
  reachable first last it ->
  exists k : nat, it = std_advance k first /\
    forall k' : nat, (k' < k)%nat -> op_ne (std_advance k' first) last = true.
Proof.
  induction 1 as [|it Hreach [k [-> Hk]] Hne].
  - exists O. split; [done|]. lia.
  - exists (S k). split.
    + clear. revert first. induction k as [|k IH]; intros first; [done|].
      simpl. apply IH.
    + intros k' Hk'. destruct (decide (k' = k)) as [->|]; [done|].
      apply Hk. lia.
Qed.

Lemma std_advance_S (k : nat) (it : It) :
  std_advance (S k) it = op_inc (std_advance k it).
Proof. revert it. induction k as [|k IH]; intros it; [done|]. simpl. apply IH. Qed.

Lemma advance_reachable (first last : It) (k : nat) :
  (forall k' : nat, (k' < k)%nat -> op_ne (std_advance k' first) last = true) ->
  reachable first last (std_advance k first).
Proof.
  induction k as [|k IH]; intros Hk; [constructor|].
  rewrite std_advance_S. constructor; [|apply Hk; lia].
  apply IH. intros k' Hk'. apply Hk. lia.
Qed.

End algorithms_facts.

(** ** The triangular order *)

Lemma seqZ_step (m n : Z) : 0 < n -> seqZ m n = m :: seqZ (m + 1) (n - 1).
Proof. intros Hn. by rewrite seqZ_cons. Qed.

Lemma rows_nil (n a r : Z) : r <= 0 -> rows n a r = [].
Proof. intros Hr. unfold rows. by rewrite seqZ_nil. Qed.

Lemma rows_step (n a r : Z) :
  0 < r -> rows n a r = row n a ++ rows n (a + 1) (r - 1).
Proof. intros Hr. unfold rows. by rewrite seqZ_step. Qed.

Lemma triangle_from_row_start (n a : Z) :
  triangle_from n a (a + 1) = rows n a (n - 1 - a).
Proof.
  unfold triangle_from.
  destruct (decide (0 < n - 1 - a)) as [Hpos|Hneg].
  - rewrite (rows_step n a) by done. unfold row.
    by replace (n - 1 - a - 1) with (n - 1 - (a + 1)) by lia.
  - rewrite !rows_nil by lia. rewrite seqZ_nil by lia. done.
Qed.

(** The first pair of the part that starts at (a,b), and the part that
    starts at the position the advance step moves to. *)
Lemma triangle_from_step (n a b : Z) :
  0 <= a < b -> b < n ->
  triangle_from n a b
  = (a, b) :: (if b + 1 =? n
               then if a + 1 =? n - 1 then []
                    else triangle_from n (a + 1) (a + 1 + 1)
               else triangle_from n a (b + 1)).
Proof.
  intros Hab Hbn.
  destruct (Z.eqb_spec (b + 1) n) as [Hlast|Hmore].
  - rewrite triangle_from_row_start.
    unfold triangle_from. rewrite seqZ_step by lia.
    rewrite (seqZ_nil _ (n - b - 1)) by lia. simpl.
    destruct (Z.eqb_spec (a + 1) (n - 1)) as [Hend|Hrows].
    + by rewrite rows_nil by lia.
    + by replace (n - 1 - (a + 1)) with (n - 1 - (a + 1)) by lia.
  - unfold triangle_from. rewrite seqZ_step by lia. simpl.
    by replace (n - b - 1) with (n - (b + 1)) by lia.
Qed.

Lemma filter_all {A : Type} (P : A -> Prop) `{forall x, Decision (P x)}
    (l : list A) :
  Forall P l -> filter P l = l.
Proof.
  induction 1 as [|x l Hx Hl IH]; [done|].
  rewrite filter_cons_True by done. by rewrite IH.
Qed.

Lemma filter_none {A : Type} (P : A -> Prop) `{forall x, Decision (P x)}
    (l : list A) :
  Forall (fun x => ~ P x) l -> filter P l = [].
Proof.
  induction 1 as [|x l Hx Hl IH]; [done|].
  by rewrite filter_cons_False by done.
Qed.

(** Filtering one row of the square leaves the row of the triangle. *)
Lemma filter_row (n a : Z) :
  0 <= a ->
  filter (fun p : Z * Z => p.1 < p.2) (pair a <$> seqZ 0 n) = row n a.
Proof.
  intros Ha. unfold row.
  destruct (decide (a + 1 <= n)) as [Hin|Hout].
  - replace n with ((a + 1) + (n - (a + 1))) at 1 by lia.
    rewrite seqZ_app by lia. rewrite fmap_app, filter_app.
    rewrite filter_none, filter_all; [done| |].
    + apply Forall_fmap, Forall_seqZ. simpl. lia.
    + apply Forall_fmap, Forall_seqZ. simpl. lia.
  - rewrite (seqZ_nil (a + 1)) by lia.
    apply filter_none, Forall_fmap, Forall_seqZ. simpl. lia.
Qed.

Lemma cprod_cons {A B : Type} (x : A) (l : list A) (k : list B) :
  cprod (x :: l) k = (pair x <$> k) ++ cprod l k.
Proof. done. Qed.

Lemma filter_rows (n : Z) (l : list Z) :
  Forall (fun a => 0 <= a) l ->
  filter (fun p : Z * Z => p.1 < p.2) (cprod l (seqZ 0 n))
  = mjoin (row n <$> l).
Proof.
  induction 1 as [|a l Ha Hl IH]; [done|].
  rewrite cprod_cons, filter_app, IH. by rewrite filter_row.
Qed.

(** The filtered square is the triangle, row after row. *)
Lemma triangular_rows (n : Z) : triangular n = rows n 0 (n - 1).
Proof.
  unfold triangular, row_major, rows.
  rewrite filter_rows by (apply Forall_seqZ; lia).
  destruct (decide (0 < n)) as [Hn|Hn].
  - replace n with ((n - 1) + 1) at 2 by lia.
    rewrite seqZ_app by lia. rewrite fmap_app, join_app.
    rewrite (seqZ_step _ 1), (seqZ_nil _ (1 - 1)) by lia. simpl.
    assert (row n (0 + (n - 1)) = []) as ->
      by (unfold row; by rewrite seqZ_nil by lia).
    by rewrite !app_nil_r.
  - by rewrite !seqZ_nil by lia.
Qed.

Lemma triangular_from_begin (n : Z) : triangular n = triangle_from n 0 1.
Proof.
  rewrite triangular_rows. change 1 with (0 + 1) at 2.
  by rewrite triangle_from_row_start, Z.sub_0_r.
Qed.

(** Twice the number of pairs in [r] full rows that end at row [n - 2]. *)
Lemma length_rows (n : Z) (r : nat) (a : Z) :
  a + Z.of_nat r = n - 1 ->
  2 * Z.of_nat (length (rows n a (Z.of_nat r))) = Z.of_nat r * (Z.of_nat r + 1).
Proof.
  revert a. induction r as [|r IH]; intros a Har.
  - by rewrite rows_nil.
  - rewrite rows_step by lia.
    replace (Z.of_nat (S r) - 1) with (Z.of_nat r) by lia.
    rewrite length_app, Nat2Z.inj_add, Z.mul_add_distr_l, IH by lia.
    unfold row. rewrite length_fmap, length_seqZ. lia.
Qed.

Lemma length_triangular (n : Z) :
  1 <= n -> Z.of_nat (length (triangular n)) = n * (n - 1) / 2.
Proof.
  intros Hn. rewrite triangular_rows.
  pose proof (length_rows n (Z.to_nat (n - 1)) 0) as Hlen.
  rewrite Z2Nat.id in Hlen by lia.
  specialize (Hlen ltac:(lia)).
  pose proof (pronic_even n). lia.
Qed.

(** ** [internal_pairs]: enumeration *)

Lemma ip_op_inc (e a b : Z) :
  op_inc (internal_pairs.Iterator e a b)
  = if b + 1 =? e
    then internal_pairs.Iterator e (a + 1) (a + 1 + 1)
    else internal_pairs.Iterator e a (b + 1).
Proof. done. Qed.

Lemma ip_op_ne (p q : internal_pairs.iterator) :
  op_ne p q = false
  <-> internal_pairs.i p = internal_pairs.i q /\
      internal_pairs.j p = internal_pairs.j q.
Proof.
  simpl. unfold internal_pairs.operator_ne.
  destruct (Z.eqb_spec (internal_pairs.i p) (internal_pairs.i q));
    destruct (Z.eqb_spec (internal_pairs.j p) (internal_pairs.j q));
    simpl; intuition congruence.
Qed.

(** A loop started at the pair (a,b) of a container of [n] elements hands
    out the rest of the triangle and stops at [end()]. *)
Lemma ip_range_for_from (l : list (Z * Z)) :
  forall (n a b e : Z) (fuel : nat),
    0 <= a < b -> b < n ->
    triangle_from n a b = l -> (length l < fuel)%nat ->
    range_for fuel (internal_pairs.Iterator n a b)
                   (internal_pairs.Iterator e (n - 1) n) = Some l.
Proof.
  induction l as [|p l IH]; intros n a b e fuel Hab Hbn Hl Hfuel;
    rewrite triangle_from_step in Hl by done; [done|].
  injection Hl as <- Hl.
  destruct fuel as [|fuel]; [lia|]. simpl in Hfuel.
  rewrite range_for_step; last first.
  { apply not_false_iff_true. rewrite ip_op_ne. simpl. lia. }
  rewrite ip_op_inc.
  destruct (Z.eqb_spec (b + 1) n) as [Hlast|Hmore].
  - destruct (Z.eqb_spec (a + 1) (n - 1)) as [Hend|Hrows].
    + subst l. destruct fuel as [|fuel]; [simpl in Hfuel; lia|].
      rewrite range_for_stop; [done|]. apply ip_op_ne. simpl. lia.
    + rewrite (IH n (a + 1) (a + 1 + 1) e fuel); [done|lia|lia|done|lia].
  - rewrite (IH n a (b + 1) e fuel); [done|lia|lia|done|lia].
Qed.

Section internal_pairs_facts.
Context {A : Type}.
Implicit Types vec : list A.

Lemma ip_range_for vec (fuel : nat) :
  2 <= vec_size vec ->
  (length (triangular (vec_size vec)) < fuel)%nat ->
  range_for fuel (internal_pairs.begin vec) (internal_pairs.end_ vec)
  = Some (triangular (vec_size vec)).
Proof.
  intros Hn Hfuel. unfold internal_pairs.begin, internal_pairs.end_.
  unfold vec_end, vec_begin, std_next, std_prev.
  apply ip_range_for_from; [lia|unfold vec_size in Hn; lia| |done].
  by rewrite triangular_from_begin.
Qed.

(** A container of one element: [begin()] and [end()] are one position. *)
Lemma ip_begin_end_one vec :
  vec_size vec = 1 -> internal_pairs.begin vec = internal_pairs.end_ vec.
Proof.
  unfold internal_pairs.begin, internal_pairs.end_.
  unfold vec_size, vec_end, vec_begin, std_next, std_prev.
  intros ->. done.
Qed.

Lemma ip_range_for_one vec (fuel : nat) :
  vec_size vec = 1 -> (0 < fuel)%nat ->
  range_for fuel (internal_pairs.begin vec) (internal_pairs.end_ vec) = Some [].
Proof.
  intros Hn Hfuel. destruct fuel as [|fuel]; [lia|].
  apply range_for_stop. rewrite ip_begin_end_one by done.
  by apply ip_op_ne.
Qed.

End internal_pairs_facts.

(** ** Reading and writing through references *)

Section storage_facts.
Context {A : Type}.
Implicit Types vec pre xs : list A.

Lemma load_nat vec (k : nat) : load vec (Z.of_nat k) = vec !! k.
Proof.
  unfold load. rewrite bool_decide_eq_true_2 by lia. by rewrite Nat2Z.id.
Qed.

Lemma load_app_r pre xs (k : nat) :
  load (pre ++ xs) (Z.of_nat (length pre) + Z.of_nat k) = xs !! k.
Proof.
  rewrite <- Nat2Z.inj_add, load_nat.
  rewrite lookup_app_r by lia. f_equal. lia.
Qed.

Lemma load_Some vec (r : reference) (x : A) :
  load vec r = Some x -> 0 <= r < vec_size vec.
Proof.
  unfold load, vec_size. case_bool_decide; [|done].
  intros Hx%lookup_lt_Some. lia.
Qed.

Lemma load_is_Some vec (r : reference) :
  0 <= r < vec_size vec -> is_Some (load vec r).
Proof.
  unfold load, vec_size. intros Hr.
  rewrite bool_decide_eq_true_2 by lia. apply lookup_lt_is_Some. lia.
Qed.

(** The views of the triangle that starts at row [length pre], read in a
    container [pre ++ xs], are the combinations of [xs]. *)
Lemma view_rows pre xs :
  Forall2 (fun p y => internal_pairs.view (pre ++ xs) p = Some y)
    (rows (vec_size (pre ++ xs)) (vec_size pre) (vec_size xs - 1))
    (combinations xs).
Proof.
  revert pre. induction xs as [|x xs IH]; intros pre.
  - rewrite rows_nil by (unfold vec_size; simpl; lia). constructor.
  - destruct (decide (xs = [])) as [->|Hxs].
    { rewrite rows_nil by (unfold vec_size; simpl; lia). constructor. }
    assert (0 < vec_size xs) as Hlen.
    { unfold vec_size. destruct xs; [done|]. simpl. lia. }
    rewrite rows_step by (unfold vec_size in *; simpl; lia).
    simpl. apply Forall2_app.
    + unfold row. apply Forall2_fmap.
      apply Forall2_same_length_lookup. split.
      { rewrite length_seqZ. unfold vec_size. rewrite length_app. simpl. lia. }
      intros k b y [-> Hk]%lookup_seqZ Hy.
      unfold internal_pairs.view. simpl.
      replace (vec_size pre) with (Z.of_nat (length pre) + Z.of_nat 0)
        at 1 by (unfold vec_size; lia).
      rewrite load_app_r. simpl.
      replace (vec_size pre + 1 + Z.of_nat k)
        with (Z.of_nat (length pre) + Z.of_nat (S k)) by (unfold vec_size; lia).
      rewrite load_app_r. simpl. by rewrite Hy.
    + specialize (IH (pre ++ [x])).
      rewrite <- app_assoc in IH. simpl in IH.
      replace (vec_size (pre ++ [x])) with (vec_size pre + 1) in IH
        by (unfold vec_size; rewrite length_app; simpl; lia).
      by replace (vec_size (x :: xs) - 1 - 1) with (vec_size xs - 1)
        by (unfold vec_size; simpl; lia).
Qed.

Lemma view_triangular vec :
  mapM (internal_pairs.view vec) (triangular (vec_size vec))
  = Some (combinations vec).
Proof.
  apply mapM_Some_2. rewrite triangular_rows. apply (view_rows [] vec).
Qed.

End storage_facts.

(** ** [cartesian_product]: enumeration *)

Lemma cp_op_ne (p q : cartesian_product.iterator) :
  op_ne p q = false
  <-> cartesian_product.pos1 p = cartesian_product.pos1 q /\
      cartesian_product.pos2 p = cartesian_product.pos2 q.
Proof.
  simpl. unfold cartesian_product.operator_ne.
  destruct (Z.eqb_spec (cartesian_product.pos1 p) (cartesian_product.pos1 q));
    destruct (Z.eqb_spec (cartesian_product.pos2 p) (cartesian_product.pos2 q));
    simpl; intuition congruence.
Qed.

Lemma product_from_first (l1 f2 l2 a : Z) :
  a < l1 ->
  product_from l1 f2 l2 a f2 = cprod (seqZ a (l1 - a)) (seqZ f2 (l2 - f2)).
Proof.
  intros Ha. unfold product_from.
  rewrite (seqZ_step a) by lia. rewrite cprod_cons.
  by replace (l1 - a - 1) with (l1 - (a + 1)) by lia.
Qed.

Lemma product_from_step (l1 f2 l2 a b : Z) :
  a < l1 -> f2 <= b < l2 ->
  product_from l1 f2 l2 a b
  = (a, b) :: (if b + 1 =? l2
               then if a + 1 =? l1 then []
                    else product_from l1 f2 l2 (a + 1) f2
               else product_from l1 f2 l2 a (b + 1)).
Proof.
  intros Ha Hb. unfold product_from at 1.
  rewrite (seqZ_step b) by lia. simpl. f_equal.
  destruct (Z.eqb_spec (b + 1) l2) as [Hlast|Hmore].
  - rewrite (seqZ_nil (b + 1)) by lia. simpl.
    destruct (Z.eqb_spec (a + 1) l1) as [Hend|Hrows].
    + by rewrite (seqZ_nil (a + 1)) by lia.
    + rewrite (seqZ_step (a + 1)) by lia. rewrite cprod_cons.
      unfold product_from.
      by replace (l1 - (a + 1) - 1) with (l1 - (a + 1 + 1)) by lia.
  - unfold product_from.
    by replace (l2 - b - 1) with (l2 - (b + 1)) by lia.
Qed.

(** A loop started at the pair (a,b) hands out the rest of the product and
    stops at any position that has both cursors at the ends. *)
Lemma cp_range_for_from (l : list (Z * Z)) :
  forall (l1 f2 l2 a b : Z) (e : cartesian_product.iterator) (fuel : nat),
    a < l1 -> f2 <= b < l2 ->
    cartesian_product.pos1 e = l1 -> cartesian_product.pos2 e = l2 ->
    product_from l1 f2 l2 a b = l -> (length l < fuel)%nat ->
    range_for fuel (cartesian_product.Iterator_ a l1 b f2 l2) e = Some l.
Proof.
  induction l as [|p l IH]; intros l1 f2 l2 a b e fuel Ha Hb He1 He2 Hl Hfuel;
    rewrite product_from_step in Hl by done; [done|].
  injection Hl as <- Hl.
  destruct fuel as [|fuel]; [lia|]. simpl in Hfuel.
  rewrite range_for_step; last first.
  { apply not_false_iff_true. rewrite cp_op_ne. simpl. lia. }
  change (op_inc (cartesian_product.Iterator_ a l1 b f2 l2))
    with (cartesian_product.operator_inc (cartesian_product.Iterator_ a l1 b f2 l2)).
  unfold cartesian_product.operator_inc, std_next. simpl.
  destruct (Z.eqb_spec (b + 1) l2) as [Hlast|Hmore].
  - destruct (Z.eqb_spec (a + 1) l1) as [Hend|Hrows].
    + subst l. destruct fuel as [|fuel]; [simpl in Hfuel; lia|].
      rewrite range_for_stop; [done|]. apply cp_op_ne. simpl. lia.
    + rewrite (IH l1 f2 l2 (a + 1) f2 e fuel); [done|lia|lia|done|done|done|lia].
  - rewrite (IH l1 f2 l2 a (b + 1) e fuel); [done|lia|lia|done|done|done|lia].
Qed.

Lemma length_cprod {A B : Type} (l : list A) (k : list B) :
  length (cprod l k) = (length l * length k)%nat.
Proof.
  induction l as [|x l IH]; [done|].
  rewrite cprod_cons, length_app, length_fmap, IH. simpl. lia.
Qed.

Lemma length_row_major (n1 n2 : Z) :
  0 <= n1 -> 0 <= n2 -> Z.of_nat (length (row_major n1 n2)) = n1 * n2.
Proof.
  intros Hn1 Hn2. unfold row_major.
  rewrite length_cprod, !length_seqZ. lia.
Qed.

(** The product of the two distances, wrapped to [ptrdiff_t] and returned
    as [size_t], is the product reduced modulo [2 ^ w]. *)
Lemma cp_size_wrap (w : nat) (c : cartesian_product.t) :
  cartesian_product.size w c
  = to_size_t w
      (iter_distance (cartesian_product.pos1 (cartesian_product._begin c))
                     (cartesian_product.last1 (cartesian_product._begin c))
       * iter_distance (cartesian_product.first2 (cartesian_product._begin c))
                       (cartesian_product.last2 (cartesian_product._begin c))).
Proof.
  unfold cartesian_product.size, ptrdiff_t_mul.
  by rewrite to_size_t_ptrdiff_t.
Qed.

Section cartesian_product_facts.
Variable w : nat.
Variables first1 last1 first2 last2 : iter.

Lemma cp_size_make :
  cartesian_product.size w (cartesian_product.make w first1 last1 first2 last2)
  = to_size_t w (iter_distance first1 last1 * iter_distance first2 last2).
Proof.
  unfold cartesian_product.make.
  rewrite (cp_size_wrap w {| cartesian_product._begin := _ |}). simpl.
  destruct (Z.eqb_spec
    (to_size_t w (iter_distance first1 last1 * iter_distance first2 last2)) 0)
    as [Hzero|Hsome].
  - rewrite cp_size_wrap. simpl. rewrite Hzero.
    unfold iter_distance, to_size_t.
    replace ((last1 - last1) * (last2 - last2)) with 0 by lia.
    apply Zmod_0_l.
  - by rewrite cp_size_wrap.
Qed.

(** The guard of the constructor: [_begin] is the first pair unless
    [size()] is zero, and then it is [_end]. *)
Lemma cp_begin_make :
  cartesian_product.begin (cartesian_product.make w first1 last1 first2 last2)
  = if to_size_t w (iter_distance first1 last1 * iter_distance first2 last2) =? 0
    then cartesian_product.Iterator last1 last1 last2 last2
    else cartesian_product.Iterator first1 last1 first2 last2.
Proof.
  unfold cartesian_product.make, cartesian_product.begin.
  rewrite cp_size_wrap. simpl.
  by destruct (_ =? 0).
Qed.

Lemma cp_end_make :
  cartesian_product.end_ (cartesian_product.make w first1 last1 first2 last2)
  = cartesian_product.Iterator last1 last1 last2 last2.
Proof.
  unfold cartesian_product.make, cartesian_product.end_.
  by destruct (_ =? 0).
Qed.

(** With a non-zero [size()] the loop hands out the whole product. *)
Lemma cp_range_for (fuel : nat) :
  first1 < last1 -> first2 < last2 ->
  to_size_t w (iter_distance first1 last1 * iter_distance first2 last2) <> 0 ->
  let c := cartesian_product.make w first1 last1 first2 last2 in
  let l : list (Z * Z) :=
    cprod (seqZ first1 (last1 - first1)) (seqZ first2 (last2 - first2)) in
  (length l < fuel)%nat ->
  range_for fuel (cartesian_product.begin c) (cartesian_product.end_ c) = Some l.
Proof.
  intros H1 H2 Hsize c l Hfuel. subst c.
  rewrite cp_begin_make, cp_end_make.
  destruct (Z.eqb_spec
    (to_size_t w (iter_distance first1 last1 * iter_distance first2 last2)) 0);
    [done|].
  apply cp_range_for_from; [lia|lia|done|done| |done].
  by rewrite product_from_first.
Qed.

(** With a zero [size()] the loop body never runs. *)
Lemma cp_range_for_empty (fuel : nat) :
  to_size_t w (iter_distance first1 last1 * iter_distance first2 last2) = 0 ->
  let c := cartesian_product.make w first1 last1 first2 last2 in
  cartesian_product.begin c = cartesian_product.end_ c /\
  ((0 < fuel)%nat ->
   range_for fuel (cartesian_product.begin c) (cartesian_product.end_ c)
   = Some []).
Proof.
  intros Hsize c. subst c. rewrite cp_begin_make, cp_end_make, Hsize.
  split; [done|]. intros Hfuel. destruct fuel as [|fuel]; [lia|].
  apply range_for_stop. by apply cp_op_ne.
Qed.

End cartesian_product_facts.

(** ** Invariants of the reachable positions *)

(** Over a container of at least one element every position a loop
    reaches keeps the container's end, and is a pair (a,b) with a < b
    inside the container or the end position. *)
Lemma ip_reachable_inv (n : Z) (it : internal_pairs.iterator) :
  1 <= n ->
  reachable (internal_pairs.Iterator n 0 1)
            (internal_pairs.Iterator n (n - 1) n) it ->
  internal_pairs._end it = n /\
  ((0 <= internal_pairs.i it < internal_pairs.j it /\ internal_pairs.j it < n)
   \/ (internal_pairs.i it = n - 1 /\ internal_pairs.j it = n)).
Proof.
  intros Hn. induction 1 as [|it Hreach [He IH] Hne].
  - simpl. split; [done|]. lia.
  - apply not_false_iff_true in Hne. rewrite ip_op_ne in Hne.
    destruct it as [e a b]. simpl in *. subst e.
    rewrite ip_op_inc.
    destruct (Z.eqb_spec (b + 1) n); simpl; (split; [done|]); lia.
Qed.

Lemma ip_reachable_dereferenceable {A : Type} (vec : list A)
    (it : internal_pairs.iterator) :
  1 <= vec_size vec ->
  reachable (internal_pairs.begin vec) (internal_pairs.end_ vec) it ->
  op_ne it (internal_pairs.end_ vec) = true ->
  0 <= internal_pairs.i it < internal_pairs.j it /\
  internal_pairs.j it < vec_size vec.
Proof.
  intros Hn Hreach Hne.
  apply not_false_iff_true in Hne. rewrite ip_op_ne in Hne.
  unfold internal_pairs.begin, internal_pairs.end_ in *.
  unfold vec_begin, vec_end, vec_size, std_next, std_prev in *.
  simpl in Hne.
  apply ip_reachable_inv in Hreach as [_ Hpos]; [|done].
  lia.
Qed.

(** Over two non-empty ranges every position a loop reaches either has
    both cursors inside their ranges or has both at their ends. *)
Lemma cp_reachable_inv (w : nat) (first1 last1 first2 last2 : iter)
    (it : cartesian_product.iterator) :
  first1 < last1 -> first2 < last2 ->
  let c := cartesian_product.make w first1 last1 first2 last2 in
  reachable (cartesian_product.begin c) (cartesian_product.end_ c) it ->
  cartesian_product.last1 it = last1 /\
  cartesian_product.last2 it = last2 /\
  ((cartesian_product.first2 it = first2 /\
    first1 <= cartesian_product.pos1 it < last1 /\
    first2 <= cartesian_product.pos2 it < last2)
   \/ (cartesian_product.pos1 it = last1 /\
       cartesian_product.pos2 it = last2)).
Proof.
  intros H1 H2 c. subst c. rewrite cp_begin_make, cp_end_make.
  induction 1 as [|it Hreach (Hl1 & Hl2 & IH) Hne].
  - destruct (_ =? 0); simpl; (split; [done|]); (split; [done|]); lia.
  - apply not_false_iff_true in Hne. rewrite cp_op_ne in Hne.
    destruct it as [p1 l1 p2 f2 l2]. simpl in *. subst l1 l2.
    unfold cartesian_product.operator_inc, std_next. simpl.
    destruct (Z.eqb_spec (p2 + 1) last2); simpl;
      [destruct (Z.eqb_spec (p1 + 1) last1); simpl|];
      (split; [done|]); (split; [done|]); lia.
Qed.

(** ** [cartesian_product]: the elements behind the views *)

Section cartesian_view.
Context {A B : Type}.

Lemma view_product_from (pre xs : list A) (vec2 : list B) :
  Forall2 (fun p y => cartesian_product.view (pre ++ xs) vec2 p = Some y)
    (cprod (seqZ (vec_size pre) (vec_size xs)) (seqZ 0 (vec_size vec2)))
    (cprod xs vec2).
Proof.
  revert pre. induction xs as [|x xs IH]; intros pre.
  - rewrite seqZ_nil by done. constructor.
  - rewrite seqZ_step by (unfold vec_size; simpl; lia).
    rewrite !cprod_cons. apply Forall2_app.
    + apply Forall2_fmap, Forall2_same_length_lookup. split.
      { rewrite length_seqZ. unfold vec_size. lia. }
      intros k b y [-> Hk]%lookup_seqZ Hy.
      unfold cartesian_product.view. simpl.
      replace (vec_size pre) with (Z.of_nat (length pre) + Z.of_nat 0)
        by (unfold vec_size; lia).
      rewrite load_app_r. simpl. rewrite Z.add_0_l, load_nat. by rewrite Hy.
    + specialize (IH (pre ++ [x])).
      rewrite <- app_assoc in IH. simpl in IH.
      replace (vec_size (pre ++ [x])) with (vec_size pre + 1) in IH
        by (unfold vec_size; rewrite length_app; simpl; lia).
      by replace (vec_size (x :: xs) - 1) with (vec_size xs)
        by (unfold vec_size; simpl; lia).
Qed.

Lemma view_row_major (vec1 : list A) (vec2 : list B) :
  mapM (cartesian_product.view vec1 vec2)
       (row_major (vec_size vec1) (vec_size vec2))
  = Some (cprod vec1 vec2).
Proof. apply mapM_Some_2, (view_product_from [] vec1 vec2). Qed.

End cartesian_view.

(** ** The tests of the repository, replayed on the model *)

Example test_internal_pairs :
  let vec := [0; 1; 2; 3] in
  internal_pairs.size 64 vec = 6 /\
  std_distance 7 (internal_pairs.begin vec) (internal_pairs.end_ vec)
  = Some 6%nat /\
  (range_for 7 (internal_pairs.begin vec) (internal_pairs.end_ vec)
     ≫= mapM (internal_pairs.view vec))
  = Some [(0, 1); (0, 2); (0, 3); (1, 2); (1, 3); (2, 3)] /\
  internal_pairs.view vec (op_star (std_advance 3 (internal_pairs.begin vec)))
  = Some (1, 2) /\
  assign_first_front vec (-1) = Some (-1).
Proof. vm_compute. done. Qed.

Example test_cartesian_product :
  let vec1 := [0; 1; 3] in
  let vec2 := [10; 20] in
  let pairs := cartesian_product.over 64 vec1 vec2 in
  cartesian_product.size 64 pairs = 6 /\
  std_distance 7 (cartesian_product.begin pairs) (cartesian_product.end_ pairs)
  = Some 6%nat /\
  (range_for 7 (cartesian_product.begin pairs) (cartesian_product.end_ pairs)
     ≫= mapM (cartesian_product.view vec1 vec2))
  = Some [(0, 10); (0, 20); (1, 10); (1, 20); (3, 10); (3, 20)] /\
  range_for 1 (cartesian_product.begin (cartesian_product.over 64 (@nil Z) vec2))
              (cartesian_product.end_ (cartesian_product.over 64 (@nil Z) vec2))
  = Some [].
Proof. vm_compute. done. Qed.

(** ** First and last pair of the triangle *)

Lemma rows_snoc (n a r : Z) :
  0 <= r -> rows n a (r + 1) = rows n a r ++ row n (a + r).
Proof.
  intros Hr. unfold rows. rewrite seqZ_app by lia.
  rewrite fmap_app, join_app.
  rewrite (seqZ_step _ 1), (seqZ_nil _ (1 - 1)) by lia.
  simpl. by rewrite app_nil_r.
Qed.

Lemma head_triangular (n : Z) : 2 <= n -> head (triangular n) = Some (0, 1).
Proof.
  intros Hn. rewrite triangular_from_begin.
  by rewrite triangle_from_step by lia.
Qed.

Lemma last_triangular (n : Z) :
  2 <= n -> last (triangular n) = Some (n - 2, n - 1).
Proof.
  intros Hn. rewrite triangular_rows.
  replace (n - 1) with ((n - 2) + 1) at 1 by lia.
  rewrite rows_snoc by lia. unfold row.
  replace (n - (0 + (n - 2) + 1)) with 1 by lia.
  rewrite (seqZ_step _ 1), (seqZ_nil _ (1 - 1)) by lia. simpl.
  rewrite last_snoc. do 2 f_equal; lia.
Qed.

(** ** The claims about [internal_pairs] *)

(** C1: over a container of [n >= 2] elements, a loop from [begin()] by
    unit advances hands out exactly the pairs (a,b) with a < b in
    row-major triangular order, and stops; read through the views these
    are the pairs (element a, element b), the combinations of the
    container. The first dereferenced pair is (element 0, element 1);
    the pair dereferenced last, one advance before [end()], is
    (element n-2, element n-1). An advance increments [j] and, when [j]
    meets the end of the container, increments [i] and puts [j] right
    after it. *)
Theorem internal_pairs_triangular_order {A : Type} (vec : list A) (fuel : nat) :
  let n := vec_size vec in
  let first := internal_pairs.begin vec in
  let last := internal_pairs.end_ vec in
  2 <= n ->
  n * (n - 1) / 2 < Z.of_nat fuel ->
  range_for fuel first last = Some (triangular n) /\
  mapM (internal_pairs.view vec) (triangular n) = Some (combinations vec) /\
  (exists x y : A,
     vec !! 0%nat = Some x /\ vec !! 1%nat = Some y /\
     op_star first = (0, 1) /\
     internal_pairs.view vec (op_star first) = Some (x, y)) /\
  (exists (m : nat) (x y : A),
     length (triangular n) = S m /\
     op_ne (std_advance m first) last = true /\
     op_ne (op_inc (std_advance m first)) last = false /\
     vec !! Z.to_nat (n - 2) = Some x /\ vec !! Z.to_nat (n - 1) = Some y /\
     op_star (std_advance m first) = (n - 2, n - 1) /\
     internal_pairs.view vec (op_star (std_advance m first)) = Some (x, y)) /\
  (forall it : internal_pairs.iterator,
     op_inc it
     = if internal_pairs.j it + 1 =? internal_pairs._end it
       then internal_pairs.Iterator (internal_pairs._end it)
              (internal_pairs.i it + 1) (internal_pairs.i it + 1 + 1)
       else internal_pairs.Iterator (internal_pairs._end it)
              (internal_pairs.i it) (internal_pairs.j it + 1)).
Proof.
  intros n first last Hn Hfuel.
  assert (range_for fuel first last = Some (triangular n)) as Hrun.
  { apply ip_range_for; [done|].
    pose proof (length_triangular n ltac:(lia)). fold n. lia. }
  assert (forall a b : Z, 0 <= a < n -> 0 <= b < n ->
            exists x y : A,
              vec !! Z.to_nat a = Some x /\ vec !! Z.to_nat b = Some y /\
              internal_pairs.view vec (a, b) = Some (x, y)) as Hview.
  { intros a b Ha Hb. unfold n, vec_size in *.
    destruct (lookup_lt_is_Some_2 vec (Z.to_nat a)) as [x Hx]; [lia|].
    destruct (lookup_lt_is_Some_2 vec (Z.to_nat b)) as [y Hy]; [lia|].
    exists x, y. split; [done|]. split; [done|].
    unfold internal_pairs.view, load. simpl.
    rewrite !bool_decide_eq_true_2 by lia. by rewrite Hx, Hy. }
  split; [done|]. split; [apply view_triangular|].
  split; [|split; [|intros it; reflexivity]].
  - destruct (Hview 0 1) as (x & y & Hx & Hy & Hxy); [lia|lia|].
    exists x, y. done.
  - destruct (range_for_advance _ _ _ _ Hrun) as [Hend Hbefore].
    pose proof (last_triangular n Hn) as Hlast.
    rewrite last_lookup in Hlast.
    pose proof (lookup_lt_Some _ _ _ Hlast) as Hlt.
    destruct (length (triangular n)) as [|m] eqn:Hlen; [lia|].
    simpl in Hlast.
    destruct (Hbefore m) as [Hne Hm];
      [change (m < length (triangular n))%nat; lia|].
    assert (Some (op_star (std_advance m first)) = Some (n - 2, n - 1))
      as Hsome by (rewrite <- Hlast; symmetry; exact Hm).
    assert (op_star (std_advance m first) = (n - 2, n - 1)) as Hstar
      by congruence.
    destruct (Hview (n - 2) (n - 1)) as (x & y & Hx & Hy & Hxy); [lia|lia|].
    exists m, x, y. split; [done|]. split; [done|]. split.
    { rewrite <- std_advance_S, <- Hend. f_equal. f_equal. exact (eq_sym Hlen). }
    by rewrite Hstar.
Qed.

(** The claim holds on the container of the repository's test. *)
Lemma internal_pairs_triangular_order_witness :
  2 <= vec_size [0; 1; 2; 3] /\
  range_for 7 (internal_pairs.begin [0; 1; 2; 3])
              (internal_pairs.end_ [0; 1; 2; 3])
  = Some [(0, 1); (0, 2); (0, 3); (1, 2); (1, 3); (2, 3)].
Proof.
  split; [vm_compute; done|].
  change (range_for 7 (internal_pairs.begin [0; 1; 2; 3])
                      (internal_pairs.end_ [0; 1; 2; 3])
          = Some (triangular (vec_size [0; 1; 2; 3]))).
  apply (internal_pairs_triangular_order [0; 1; 2; 3] 7); vm_compute; done.
Defined.

Lemma ip_size_wrap (w : nat) {A : Type} (vec : list A) :
  internal_pairs.size w vec
  = to_size_t w (vec_size vec * (vec_size vec - 1)) / 2.
Proof.
  unfold internal_pairs.size, size_t_div, size_t_mul, size_t_sub, to_size_t.
  by rewrite Zmult_mod_idemp_r.
Qed.

Lemma ip_size_exact (w : nat) {A : Type} (vec : list A) :
  1 <= vec_size vec ->
  vec_size vec * (vec_size vec - 1) < modulus w ->
  internal_pairs.size w vec = vec_size vec * (vec_size vec - 1) / 2.
Proof.
  intros Hn Hfit. rewrite ip_size_wrap, to_size_t_small; [done|]. nia.
Qed.

Lemma ip_range_for_ge1 {A : Type} (vec : list A) (fuel : nat) :
  1 <= vec_size vec ->
  vec_size vec * (vec_size vec - 1) / 2 < Z.of_nat fuel ->
  range_for fuel (internal_pairs.begin vec) (internal_pairs.end_ vec)
  = Some (triangular (vec_size vec)).
Proof.
  intros Hn Hfuel. destruct (decide (vec_size vec = 1)) as [Hone|Hmore].
  - rewrite Hone in Hfuel |- *. apply ip_range_for_one; [done|].
    change (1 * (1 - 1) / 2) with 0 in Hfuel. lia.
  - apply ip_range_for; [lia|].
    pose proof (length_triangular (vec_size vec) Hn). lia.
Qed.

(** C3, as amended: over a container of [n >= 1] elements the number of
    unit advances that take [begin()] to a position equal to [end()] is
    exactly n(n-1)/2, which is what [std::distance] counts; [size()]
    returns n(n-1) reduced modulo [2 ^ w] and halved, which is n(n-1)/2
    whenever n(n-1) fits the word. *)
Theorem internal_pairs_size_distance (w : nat) {A : Type} (vec : list A)
    (fuel : nat) :
  let n := vec_size vec in
  let first := internal_pairs.begin vec in
  let last := internal_pairs.end_ vec in
  1 <= n ->
  n * (n - 1) / 2 < Z.of_nat fuel ->
  std_distance fuel first last = Some (Z.to_nat (n * (n - 1) / 2)) /\
  op_ne (std_advance (Z.to_nat (n * (n - 1) / 2)) first) last = false /\
  (forall k : nat, (k < Z.to_nat (n * (n - 1) / 2))%nat ->
     op_ne (std_advance k first) last = true) /\
  internal_pairs.size w vec = to_size_t w (n * (n - 1)) / 2 /\
  (n * (n - 1) < modulus w -> internal_pairs.size w vec = n * (n - 1) / 2).
Proof.
  intros n first last Hn Hfuel. subst first last.
  pose proof (ip_range_for_ge1 vec fuel Hn Hfuel) as Hrun.
  pose proof (length_triangular n Hn) as Hlen.
  assert (length (triangular n) = Z.to_nat (n * (n - 1) / 2)) as Hlen' by lia.
  destruct (range_for_advance _ _ _ _ Hrun) as [Hend Hbefore].
  split; [|split; [|split; [|split]]].
  - rewrite std_distance_range_for, Hrun. simpl.
    f_equal. exact Hlen'.
  - rewrite <- Hend. f_equal. f_equal. exact (eq_sym Hlen').
  - intros k Hk. apply Hbefore.
    change (k < length (triangular n))%nat. lia.
  - apply ip_size_wrap.
  - intros Hfit. by apply ip_size_exact.
Qed.

Lemma internal_pairs_size_distance_witness :
  1 <= vec_size [0; 1; 2; 3] /\
  std_distance 7 (internal_pairs.begin [0; 1; 2; 3])
                 (internal_pairs.end_ [0; 1; 2; 3]) = Some 6%nat /\
  internal_pairs.size 64 [0; 1; 2; 3] = 6.
Proof.
  split; [vm_compute; done|].
  destruct (internal_pairs_size_distance 64 [0; 1; 2; 3] 7)
    as (Hdist & _ & _ & _ & Hsize); [vm_compute; done|vm_compute; done|].
  split; [exact Hdist|]. apply Hsize. vm_compute. done.
Defined.

(** On the empty container the advances from [begin()] only move [j]
    further from the container. *)
Lemma ip_advance_empty (k : nat) (b : Z) :
  1 <= b ->
  std_advance k (internal_pairs.Iterator 0 0 b)
  = internal_pairs.Iterator 0 0 (b + Z.of_nat k).
Proof.
  revert b. induction k as [|k IH]; intros b Hb.
  - simpl. by rewrite Z.add_0_r.
  - simpl std_advance. rewrite ip_op_inc.
    destruct (Z.eqb_spec (b + 1) 0); [lia|].
    rewrite IH by lia. f_equal. lia.
Qed.

(** C3, as stated, fails twice. On the empty container [size()] is 0 but
    [begin()] differs from [end()] and no number of advances makes them
    equal. On a container of 2^32 + 1 elements and a 64-bit [size_t],
    [size()] is 2^31 while n(n-1)/2 is 2^63 + 2^31. *)
Lemma internal_pairs_size_distance_counterexample :
  (internal_pairs.size 64 (@nil Z) = 0 /\
   op_ne (internal_pairs.begin (@nil Z)) (internal_pairs.end_ (@nil Z)) = true /\
   forall k : nat,
     op_ne (std_advance k (internal_pairs.begin (@nil Z)))
           (internal_pairs.end_ (@nil Z)) = true) /\
  (let vec := replicate (Z.to_nat (2 ^ 32 + 1)) 0 in
   vec_size vec = 2 ^ 32 + 1 /\
   internal_pairs.size 64 vec = 2 ^ 31 /\
   vec_size vec * (vec_size vec - 1) / 2 = 2 ^ 63 + 2 ^ 31).
Proof.
  split.
  - split; [reflexivity|]. split; [reflexivity|]. intros k.
    change (internal_pairs.begin (@nil Z)) with (internal_pairs.Iterator 0 0 1).
    rewrite ip_advance_empty by lia. reflexivity.
  - intros vec.
    assert (vec_size vec = 2 ^ 32 + 1) as Hn.
    { unfold vec_size, vec. rewrite length_replicate. apply Z2Nat.id. lia. }
    split; [exact Hn|]. rewrite ip_size_wrap, Hn.
    clearbody vec. split; vm_compute; reflexivity.
Qed.

Lemma ip_range_for_empty (fuel : nat) (b : Z) :
  1 <= b ->
  range_for fuel (internal_pairs.Iterator 0 0 b)
                 (internal_pairs.Iterator 0 (-1) 0) = None.
Proof.
  revert b. induction fuel as [|fuel IH]; intros b Hb; [done|].
  rewrite range_for_step by done. rewrite ip_op_inc.
  destruct (Z.eqb_spec (b + 1) 0); [lia|].
  by rewrite IH by lia.
Qed.

(** C5, on the code: on the empty container [begin()] is the position
    (i = 0, j = 1) and [end()] is (i = -1, j = 0), outside the container
    on both sides, and [!=] tells them apart, so a loop enters its body;
    no test of the loop within any fuel finds the end. On a container of
    one element the two positions are equal and the loop body never
    runs. *)
Theorem internal_pairs_empty_begin_differs {A : Type} :
  internal_pairs.begin (@nil A) = internal_pairs.Iterator 0 0 1 /\
  internal_pairs.end_ (@nil A) = internal_pairs.Iterator 0 (-1) 0 /\
  op_ne (internal_pairs.begin (@nil A)) (internal_pairs.end_ (@nil A)) = true /\
  op_eq (internal_pairs.begin (@nil A)) (internal_pairs.end_ (@nil A)) = false /\
  (forall fuel : nat,
     range_for fuel (internal_pairs.begin (@nil A)) (internal_pairs.end_ (@nil A))
     = None) /\
  (forall x : A,
     op_eq (internal_pairs.begin [x]) (internal_pairs.end_ [x]) = true /\
     range_for 1 (internal_pairs.begin [x]) (internal_pairs.end_ [x]) = Some []).
Proof.
  split; [reflexivity|]. split; [reflexivity|]. split; [reflexivity|].
  split; [reflexivity|]. split; [|intros x; split; reflexivity].
  intros fuel. by apply ip_range_for_empty.
Qed.

(** C7: over a container of [n >= 2] elements, at every position a loop
    reaches before [end()], assigning [v] through the first component of
    the pair-view makes the element at index [i] equal to [v] and leaves
    every other element, and the length, as they were. *)
Theorem internal_pairs_assign_first {A : Type} (vec : list A)
    (it : internal_pairs.iterator) (v : A) :
  let vec' := internal_pairs.assign_first vec (op_star it) v in
  2 <= vec_size vec ->
  reachable (internal_pairs.begin vec) (internal_pairs.end_ vec) it ->
  op_ne it (internal_pairs.end_ vec) = true ->
  load vec' (internal_pairs.i it) = Some v /\
  (forall r : reference, r <> internal_pairs.i it -> load vec' r = load vec r) /\
  (forall k : nat, k <> Z.to_nat (internal_pairs.i it) -> vec' !! k = vec !! k) /\
  length vec' = length vec /\
  internal_pairs.view vec' (op_star it)
  = (y ← load vec (internal_pairs.j it); Some (v, y)).
Proof.
  intros vec' Hn Hreach Hne.
  destruct (ip_reachable_dereferenceable vec it) as [Hij Hjn]; [lia|done|done|].
  unfold vec_size in *. subst vec'.
  unfold internal_pairs.assign_first, store. simpl.
  rewrite bool_decide_eq_true_2 by lia.
  assert (load (<[Z.to_nat (internal_pairs.i it):=v]> vec) (internal_pairs.i it)
          = Some v) as Hread.
  { unfold load. rewrite bool_decide_eq_true_2 by lia.
    apply list_lookup_insert_eq. lia. }
  assert (forall r : reference, r <> internal_pairs.i it ->
            load (<[Z.to_nat (internal_pairs.i it):=v]> vec) r = load vec r)
    as Hframe.
  { intros r Hr. unfold load. case_bool_decide; [|done].
    apply list_lookup_insert_ne. lia. }
  split; [done|]. split; [done|]. split; [|split].
  - intros k Hk. by apply list_lookup_insert_ne.
  - apply length_insert.
  - unfold internal_pairs.view. simpl. rewrite Hread. simpl.
    by rewrite Hframe by lia.
Qed.

Lemma internal_pairs_assign_first_witness :
  2 <= vec_size [0; 1; 2; 3] /\
  load (internal_pairs.assign_first [0; 1; 2; 3]
          (op_star (internal_pairs.begin [0; 1; 2; 3])) (-1)) 0
  = Some (-1).
Proof.
  split; [vm_compute; done|].
  apply (internal_pairs_assign_first [0; 1; 2; 3]
           (internal_pairs.begin [0; 1; 2; 3]) (-1)).
  - vm_compute. done.
  - constructor.
  - reflexivity.
Defined.

(** C10: [size()] is computed in [size_t]. On the empty container the
    subexpression [vec.size() - 1] wraps to [2 ^ w - 1] and the whole
    expression is 0; on a container of [n >= 1] elements whose product
    n(n-1) fits the word the result is the exact n(n-1)/2. *)
Theorem internal_pairs_size_unsigned (w : nat) {A : Type} (vec : list A) :
  let n := vec_size vec in
  (n = 0 ->
   size_t_sub w n 1 = modulus w - 1 /\ internal_pairs.size w vec = 0) /\
  (1 <= n -> n * (n - 1) < modulus w ->
   internal_pairs.size w vec = n * (n - 1) / 2).
Proof.
  intros n. pose proof (modulus_pos w) as Hpos. split.
  - intros Hzero. split.
    + unfold size_t_sub, to_size_t. rewrite Hzero.
      replace (0 - 1) with (modulus w - 1 + -1 * modulus w) by lia.
      rewrite Z_mod_plus_full. apply Z.mod_small. lia.
    + rewrite ip_size_wrap. fold n. rewrite Hzero. simpl.
      unfold to_size_t. by rewrite Zmod_0_l.
  - apply ip_size_exact.
Qed.

Lemma internal_pairs_size_unsigned_witness :
  size_t_sub 64 (vec_size (@nil Z)) 1 = 2 ^ 64 - 1 /\
  internal_pairs.size 64 (@nil Z) = 0 /\
  internal_pairs.size 64 [0; 1; 2; 3] = 6.
Proof.
  destruct (internal_pairs_size_unsigned 64 (@nil Z)) as [Hzero _].
  destruct (internal_pairs_size_unsigned 64 [0; 1; 2; 3]) as [_ Hsome].
  split; [apply Hzero; reflexivity|].
  split; [apply Hzero; reflexivity|].
  apply Hsome; vm_compute; done.
Defined.

(** ** The claims about [cartesian_product] *)

Lemma cp_over_range_for (w : nat) {A B : Type} (vec1 : list A) (vec2 : list B)
    (fuel : nat) :
  let c := cartesian_product.over w vec1 vec2 in
  1 <= vec_size vec1 -> 1 <= vec_size vec2 ->
  vec_size vec1 * vec_size vec2 < modulus w ->
  vec_size vec1 * vec_size vec2 < Z.of_nat fuel ->
  range_for fuel (cartesian_product.begin c) (cartesian_product.end_ c)
  = Some (row_major (vec_size vec1) (vec_size vec2)).
Proof.
  intros c Hn1 Hn2 Hfit Hfuel. subst c.
  unfold cartesian_product.over, vec_begin, vec_end, vec_size in *.
  rewrite cp_range_for.
  - unfold row_major. by rewrite !Z.sub_0_r.
  - lia.
  - lia.
  - unfold iter_distance. rewrite !Z.sub_0_r.
    rewrite to_size_t_small by nia. nia.
  - rewrite length_cprod, !length_seqZ. nia.
Qed.

(** C2, as amended: over two containers of [n1 >= 1] and [n2 >= 1]
    elements whose product n1 * n2 fits the word, a loop from [begin()]
    by unit advances hands out exactly the n1 * n2 index pairs in
    row-major order, second index fastest, and stops; read through the
    views they are the pairs of elements in that order, and
    [std::accumulate] is the left fold over them. For [0,1,3] and
    [10,20] the order is (0,10),(0,20),(1,10),(1,20),(3,10),(3,20) and
    adding up the second components gives 90. *)
Theorem cartesian_product_row_major (w : nat) {A B : Type}
    (vec1 : list A) (vec2 : list B) (fuel : nat) :
  let n1 := vec_size vec1 in
  let n2 := vec_size vec2 in
  let c := cartesian_product.over w vec1 vec2 in
  1 <= n1 -> 1 <= n2 ->
  n1 * n2 < modulus w ->
  n1 * n2 < Z.of_nat fuel ->
  (range_for fuel (cartesian_product.begin c) (cartesian_product.end_ c)
   = Some (row_major n1 n2) /\
   Z.of_nat (length (row_major n1 n2)) = n1 * n2 /\
   mapM (cartesian_product.view vec1 vec2) (row_major n1 n2)
   = Some (cprod vec1 vec2) /\
   forall (C : Type) (init : C) (op : C -> Z * Z -> C),
     std_accumulate fuel (cartesian_product.begin c) (cartesian_product.end_ c)
       init op
     = Some (foldl op init (row_major n1 n2))) /\
  (6 < modulus w ->
   let v1 := [0; 1; 3] in
   let v2 := [10; 20] in
   let c' := cartesian_product.over w v1 v2 in
   (range_for 7 (cartesian_product.begin c') (cartesian_product.end_ c')
      ≫= mapM (cartesian_product.view v1 v2))
   = Some [(0, 10); (0, 20); (1, 10); (1, 20); (3, 10); (3, 20)] /\
   std_accumulate 7 (cartesian_product.begin c') (cartesian_product.end_ c') 0
     (fun sum p => sum + default 0 (load v2 p.2))
   = Some 90).
Proof.
  intros n1 n2 c Hn1 Hn2 Hfit Hfuel. split.
  - pose proof (cp_over_range_for w vec1 vec2 fuel Hn1 Hn2 Hfit Hfuel) as Hrun.
    split; [exact Hrun|]. split; [apply length_row_major; lia|].
    split; [apply view_row_major|].
    intros C init op. rewrite std_accumulate_range_for.
    fold c in Hrun. by rewrite Hrun.
  - intros Hw v1 v2 c'.
    assert (range_for 7 (cartesian_product.begin c') (cartesian_product.end_ c')
            = Some (row_major 3 2)) as Hrun.
    { apply (cp_over_range_for w v1 v2 7);
        [vm_compute; done|vm_compute; done|exact Hw|vm_compute; done]. }
    rewrite std_accumulate_range_for, Hrun. split; reflexivity.
Qed.

Lemma cartesian_product_row_major_witness :
  1 <= vec_size [0; 1; 3] /\ 1 <= vec_size [10; 20] /\
  vec_size [0; 1; 3] * vec_size [10; 20] < modulus 64 /\
  range_for 7
    (cartesian_product.begin (cartesian_product.over 64 [0; 1; 3] [10; 20]))
    (cartesian_product.end_ (cartesian_product.over 64 [0; 1; 3] [10; 20]))
  = Some [(0, 0); (0, 1); (1, 0); (1, 1); (2, 0); (2, 1)].
Proof.
  split; [vm_compute; done|]. split; [vm_compute; done|].
  split; [vm_compute; done|].
  destruct (cartesian_product_row_major 64 [0; 1; 3] [10; 20] 7)
    as [[Hrun _] _]; [vm_compute; done..|].
  exact Hrun.
Defined.

(** C2, as stated, fails on two containers of 2^32 elements each and a
    64-bit [size_t]: [size()] is 0 in the constructor, [_begin] is set
    to [_end], and the loop hands out nothing. *)
Lemma cartesian_product_row_major_counterexample :
  let vec := replicate (Z.to_nat (2 ^ 32)) 0 in
  let c := cartesian_product.over 64 vec vec in
  vec_size vec = 2 ^ 32 /\
  cartesian_product.begin c = cartesian_product.end_ c /\
  range_for 1 (cartesian_product.begin c) (cartesian_product.end_ c) = Some [].
Proof.
  intros vec c.
  assert (Z.of_nat (length vec) = 2 ^ 32) as Hn.
  { unfold vec. rewrite length_replicate. apply Z2Nat.id. lia. }
  split; [exact Hn|].
  subst c. unfold cartesian_product.over, vec_begin, vec_end.
  rewrite Hn. clearbody vec.
  destruct (cp_range_for_empty 64 0 (2 ^ 32) 0 (2 ^ 32) 1) as [Hsame Hrun];
    [vm_compute; reflexivity|].
  split; [exact Hsame|]. apply Hrun. lia.
Qed.

(** C4, as amended: for two ranges of lengths [n1 >= 0] and [n2 >= 0],
    [size()] returns n1 * n2 reduced modulo [2 ^ w], which is n1 * n2
    whenever that product fits the word; if either length is 0 the guard
    of the constructor has made [begin()] equal to [end()], and a loop
    stops at its first test without running its body. *)
Theorem cartesian_product_size_guard (w : nat)
    (first1 last1 first2 last2 : iter) (fuel : nat) :
  let n1 := iter_distance first1 last1 in
  let n2 := iter_distance first2 last2 in
  let c := cartesian_product.make w first1 last1 first2 last2 in
  0 <= n1 -> 0 <= n2 ->
  cartesian_product.size w c = to_size_t w (n1 * n2) /\
  (n1 * n2 < modulus w -> cartesian_product.size w c = n1 * n2) /\
  (n1 = 0 \/ n2 = 0 ->
   cartesian_product.begin c = cartesian_product.end_ c /\
   op_ne (cartesian_product.begin c) (cartesian_product.end_ c) = false /\
   ((0 < fuel)%nat ->
    range_for fuel (cartesian_product.begin c) (cartesian_product.end_ c)
    = Some [])).
Proof.
  intros n1 n2 c Hn1 Hn2. split; [apply cp_size_make|]. split.
  - intros Hfit. subst c. rewrite cp_size_make. apply to_size_t_small. nia.
  - intros Hempty.
    assert (to_size_t w (n1 * n2) = 0) as Hzero.
    { unfold to_size_t. replace (n1 * n2) with 0 by nia. apply Zmod_0_l. }
    destruct (cp_range_for_empty w first1 last1 first2 last2 fuel Hzero)
      as [Hsame Hrun].
    split; [exact Hsame|]. split; [|exact Hrun].
    fold c in Hsame. rewrite Hsame. by apply cp_op_ne.
Qed.

Lemma cartesian_product_size_guard_witness :
  0 <= iter_distance 0 0 /\ 0 <= iter_distance 0 2 /\
  cartesian_product.size 64 (cartesian_product.make 64 0 0 0 2) = 0 /\
  range_for 1 (cartesian_product.begin (cartesian_product.make 64 0 0 0 2))
              (cartesian_product.end_ (cartesian_product.make 64 0 0 0 2))
  = Some [].
Proof.
  split; [vm_compute; done|]. split; [vm_compute; done|].
  destruct (cartesian_product_size_guard 64 0 0 0 2 1)
    as (_ & Hsize & Hguard); [vm_compute; done..|].
  split; [apply Hsize; vm_compute; done|].
  apply Hguard; [by left|lia].
Defined.

(** C4, as stated, fails on two ranges of 2^32 elements each and a 64-bit
    [size_t]: n1 * n2 is 2^64 and [size()] returns 0. *)
Lemma cartesian_product_size_guard_counterexample :
  let c := cartesian_product.make 64 0 (2 ^ 32) 0 (2 ^ 32) in
  iter_distance 0 (2 ^ 32) * iter_distance 0 (2 ^ 32) = 2 ^ 64 /\
  cartesian_product.size 64 c = 0.
Proof. vm_compute. done. Qed.

(** C9: over two ranges of at least one element each, every position a
    loop reaches from [begin()] has both cursors inside their ranges, or
    has [pos1] at [last1] and [pos2] at [last2] and then equals [end()];
    [pos1] at [last1] with [pos2] at [first2] is never reached. The
    advance that moves [pos1] onto [last1] puts [pos2] on [last2]. *)
Theorem cartesian_product_reachable_positions (w : nat)
    (first1 last1 first2 last2 : iter) (it : cartesian_product.iterator) :
  let c := cartesian_product.make w first1 last1 first2 last2 in
  1 <= iter_distance first1 last1 ->
  1 <= iter_distance first2 last2 ->
  reachable (cartesian_product.begin c) (cartesian_product.end_ c) it ->
  ((first1 <= cartesian_product.pos1 it < last1 /\
    first2 <= cartesian_product.pos2 it < last2)
   \/ (cartesian_product.pos1 it = last1 /\
       cartesian_product.pos2 it = last2 /\
       op_eq it (cartesian_product.end_ c) = true)) /\
  ~ (cartesian_product.pos1 it = last1 /\ cartesian_product.pos2 it = first2) /\
  (cartesian_product.pos1 it <> cartesian_product.last1 it ->
   cartesian_product.pos1 (op_inc it) = cartesian_product.last1 it ->
   cartesian_product.pos2 (op_inc it) = cartesian_product.last2 it).
Proof.
  intros c H1 H2 Hreach. unfold iter_distance in *.
  destruct (cp_reachable_inv w first1 last1 first2 last2 it) as (Hl1 & Hl2 & Hpos);
    [lia|lia|exact Hreach|].
  split; [|split].
  - destruct Hpos as [(_ & Hp1 & Hp2)|[Hp1 Hp2]]; [by left|right].
    split; [done|]. split; [done|].
    unfold op_eq. apply negb_true_iff, cp_op_ne.
    subst c. rewrite cp_end_make. simpl. done.
  - lia.
  - clear. intros Hp1. simpl. unfold cartesian_product.operator_inc, std_next.
    destruct (Z.eqb_spec (cartesian_product.pos2 it + 1)
                         (cartesian_product.last2 it)); simpl;
      [destruct (Z.eqb_spec (cartesian_product.pos1 it + 1)
                            (cartesian_product.last1 it)); simpl|];
      intros Hq; first [done|lia].
Qed.

Lemma cartesian_product_reachable_positions_witness :
  let c := cartesian_product.make 64 0 3 0 2 in
  1 <= iter_distance 0 3 /\ 1 <= iter_distance 0 2 /\
  reachable (cartesian_product.begin c) (cartesian_product.end_ c)
            (std_advance 6 (cartesian_product.begin c)) /\
  ~ (cartesian_product.pos1 (std_advance 6 (cartesian_product.begin c)) = 3 /\
     cartesian_product.pos2 (std_advance 6 (cartesian_product.begin c)) = 0).
Proof.
  intros c.
  assert (reachable (cartesian_product.begin c) (cartesian_product.end_ c)
            (std_advance 6 (cartesian_product.begin c))) as Hreach.
  { apply advance_reachable. intros k Hk.
    do 6 (destruct k as [|k]; [reflexivity|]). lia. }
  split; [vm_compute; done|]. split; [vm_compute; done|].
  split; [exact Hreach|].
  apply (cartesian_product_reachable_positions 64 0 3 0 2
           (std_advance 6 (cartesian_product.begin c)));
    [vm_compute; done|vm_compute; done|exact Hreach].
Defined.

(** ** The claims about both adaptors *)

(** C6: for both adaptors two positions are equal exactly when both
    cursors match: [i] and [j] for [internal_pairs], [pos1] and [pos2]
    for [cartesian_product]. One matching cursor is not enough: each
    adaptor of the repository's tests has positions that share one
    cursor and are different. *)
Theorem position_equality_both_cursors :
  (forall p q : internal_pairs.iterator,
     op_eq p q = true
     <-> internal_pairs.i p = internal_pairs.i q /\
         internal_pairs.j p = internal_pairs.j q) /\
  (forall p q : cartesian_product.iterator,
     op_eq p q = true
     <-> cartesian_product.pos1 p = cartesian_product.pos1 q /\
         cartesian_product.pos2 p = cartesian_product.pos2 q) /\
  (let b := internal_pairs.begin [0; 1; 2; 3] in
   internal_pairs.i b = internal_pairs.i (std_advance 1 b) /\
   op_eq b (std_advance 1 b) = false /\
   internal_pairs.j (std_advance 1 b) = internal_pairs.j (std_advance 3 b) /\
   op_eq (std_advance 1 b) (std_advance 3 b) = false) /\
  (let b := cartesian_product.begin
              (cartesian_product.over 64 [0; 1; 3] [10; 20]) in
   cartesian_product.pos1 b = cartesian_product.pos1 (std_advance 1 b) /\
   op_eq b (std_advance 1 b) = false /\
   cartesian_product.pos2 b = cartesian_product.pos2 (std_advance 2 b) /\
   op_eq b (std_advance 2 b) = false).
Proof.
  split; [|split; [|split; [vm_compute; done|vm_compute; done]]].
  - intros p q. unfold op_eq. rewrite negb_true_iff. apply ip_op_ne.
  - intros p q. unfold op_eq. rewrite negb_true_iff. apply cp_op_ne.
Qed.

(** C8: for both adaptors every position equals itself, and two calls of
    [begin()] on one adaptor give equal positions. [begin()] assigns
    nothing: it reads the bounds of the container, so it gives the same
    position after an element was assigned through a pair-view. *)
Theorem position_equality_reflexive :
  (forall p : internal_pairs.iterator, op_eq p p = true) /\
  (forall p : cartesian_product.iterator, op_eq p p = true) /\
  (forall (A : Type) (vec : list A),
     op_eq (internal_pairs.begin vec) (internal_pairs.begin vec) = true) /\
  (forall c : cartesian_product.t,
     op_eq (cartesian_product.begin c) (cartesian_product.begin c) = true) /\
  (forall (A : Type) (vec : list A) (p : reference * reference) (v : A),
     internal_pairs.begin (internal_pairs.assign_first vec p v)
     = internal_pairs.begin vec).
Proof.
  assert (forall p : internal_pairs.iterator, op_eq p p = true) as Hip.
  { intros p. unfold op_eq. by apply negb_true_iff, ip_op_ne. }
  assert (forall p : cartesian_product.iterator, op_eq p p = true) as Hcp.
  { intros p. unfold op_eq. by apply negb_true_iff, cp_op_ne. }
  split; [exact Hip|]. split; [exact Hcp|].
  split; [intros A vec; apply Hip|]. split; [intros c; apply Hcp|].
  intros A vec p v.
  unfold internal_pairs.begin, internal_pairs.assign_first, store, vec_end.
  case_bool_decide; [|done]. by rewrite length_insert.
Qed.

(** ** Further properties of [internal_pairs] *)



Lemma elem_of_triangular (n a b : Z) :
  (a, b) ∈ triangular n <-> 0 <= a < b /\ b < n.
Proof.
  unfold triangular, row_major.
  rewrite list_elem_of_filter, list_elem_of_cprod, !elem_of_seqZ. simpl. lia.
Qed.




(** X9: over a container of [n >= 1] elements, the position [k] unit
    advances after [begin()] ([std::next(begin, k)], [std::advance]),
    for every [k] below n(n-1)/2, differs from [end()], has both
    references inside the container, and dereferences to the [k]-th
    combination of the container. *)
Theorem internal_pairs_advance_kth {A : Type} (vec : list A) (k : nat) :
  let n := vec_size vec in
  let it := std_advance k (internal_pairs.begin vec) in
  1 <= n ->
  Z.of_nat k < n * (n - 1) / 2 ->
  op_ne it (internal_pairs.end_ vec) = true /\
  triangular n !! k = Some (op_star it) /\
  (0 <= internal_pairs.i it < internal_pairs.j it /\ internal_pairs.j it < n) /\
  (exists xy : A * A,
     internal_pairs.view vec (op_star it) = Some xy /\
     combinations vec !! k = Some xy).
Proof.
  intros n it Hn Hk. subst it.
  pose proof (length_triangular n Hn) as Hlen.
  assert (range_for (S (length (triangular n)))
            (internal_pairs.begin vec) (internal_pairs.end_ vec)
          = Some (triangular n)) as Hrun.
  { apply ip_range_for_ge1; [done|]. fold n. rewrite <- Hlen. lia. }
  destruct (range_for_advance _ _ _ _ Hrun) as [_ Hbefore].
  assert (k < length (triangular n))%nat as Hk'
    by (apply Nat2Z.inj_lt; rewrite Hlen; exact Hk).
  destruct (Hbefore k) as [Hne Hkth]; [exact Hk'|].
  assert (triangular n !! k
          = Some (op_star (std_advance k (internal_pairs.begin vec))))
    as Hkth' by exact Hkth.
  split; [done|]. split; [done|]. split.
  - apply list_elem_of_lookup_2 in Hkth'.
    destruct (std_advance k (internal_pairs.begin vec)) as [e a b].
    apply elem_of_triangular in Hkth'. simpl in *. exact Hkth'.
  - pose proof (mapM_Some_1 _ _ _ (view_triangular vec)) as Hviews.
    destruct (Forall2_lookup_l _ _ _ _ _ Hviews Hkth') as (xy & Hxy & Hview).
    exists xy. done.
Qed.

Lemma internal_pairs_advance_kth_witness :
  1 <= vec_size [0; 1; 2; 3] /\
  triangular 4 !! 3%nat
  = Some (op_star (std_advance 3 (internal_pairs.begin [0; 1; 2; 3]))).
Proof.
  split; [vm_compute; done|].
  apply (internal_pairs_advance_kth [0; 1; 2; 3] 3); vm_compute; done.
Defined.

(** ** The index pairs built from range views *)

Lemma zip_rows (n : Z) (l : list Z) :
  zip (l ≫= fun a => views_repeat_n a (n - 1 - a))
      (l ≫= fun a => views_ints (a + 1) n)
  = mjoin (row n <$> l).
Proof.
  induction l as [|a l IH]; [done|]. rewrite !bind_cons.
  rewrite zip_with_app.
  - rewrite IH. rewrite fmap_cons. simpl. f_equal.
    unfold views_repeat_n, views_ints, row.
    rewrite zip_with_replicate_l by (rewrite length_seqZ; lia). done.
  - unfold views_repeat_n, views_ints.
    rewrite length_replicate, length_seqZ. lia.
Qed.

Lemma internal_pairs_index_triangular (n : Z) :
  internal_pairs_index n = triangular n.
Proof.
  unfold internal_pairs_index, views_for_each. rewrite zip_rows.
  rewrite triangular_rows. unfold rows, views_ints.
  destruct (Z.ltb_spec 0 n).
  - by rewrite Z.sub_0_r.
  - by rewrite !seqZ_nil by lia.
Qed.

(** X7: the index pairs the test [internal_pairs_index] builds from
    range views are, for every [n], the pairs (a,b) with a < b in
    row-major order: none for [n <= 1] (the empty container included),
    n(n-1)/2 of them for [n >= 1], and for a container of [n >= 1]
    elements exactly the offsets an [internal_pairs] loop hands out. *)
Theorem internal_pairs_index_agrees {A : Type} (vec : list A) (fuel : nat)
    (n : Z) :
  internal_pairs_index n = triangular n /\
  (n <= 1 -> internal_pairs_index n = []) /\
  (1 <= n -> Z.of_nat (length (internal_pairs_index n)) = n * (n - 1) / 2) /\
  (1 <= vec_size vec ->
   vec_size vec * (vec_size vec - 1) / 2 < Z.of_nat fuel ->
   range_for fuel (internal_pairs.begin vec) (internal_pairs.end_ vec)
   = Some (internal_pairs_index (vec_size vec))).
Proof.
  split; [apply internal_pairs_index_triangular|]. split; [|split].
  - intros Hn. rewrite internal_pairs_index_triangular, triangular_rows.
    apply rows_nil. lia.
  - intros Hn. rewrite internal_pairs_index_triangular.
    by apply length_triangular.
  - intros Hn Hfuel. rewrite internal_pairs_index_triangular.
    by apply ip_range_for_ge1.
Qed.

Lemma internal_pairs_index_agrees_witness :
  1 <= vec_size [0; 1; 2; 3] /\
  range_for 7 (internal_pairs.begin [0; 1; 2; 3])
              (internal_pairs.end_ [0; 1; 2; 3])
  = Some (internal_pairs_index 4).
Proof.
  split; [vm_compute; done|].
  apply (internal_pairs_index_agrees [0; 1; 2; 3] 7 4); vm_compute; done.
Defined.

(** ** Further properties of [cartesian_product] *)

Lemma cp_op_inc (p1 l1 p2 f2 l2 : Z) :
  op_inc (cartesian_product.Iterator_ p1 l1 p2 f2 l2)
  = if p2 + 1 =? l2
    then if p1 + 1 =? l1
         then cartesian_product.Iterator_ (p1 + 1) l1 l2 f2 l2
         else cartesian_product.Iterator_ (p1 + 1) l1 f2 f2 l2
    else cartesian_product.Iterator_ p1 l1 (p2 + 1) f2 l2.
Proof. done. Qed.

(** The position [q] rows and [r] columns into the product is the one
    [q * n2 + r] unit advances after the first pair. *)
Lemma cp_advance_row_col (first1 last1 first2 last2 : Z) (k : nat) :
  forall q r : Z,
    Z.of_nat k = q * (last2 - first2) + r ->
    0 <= q < last1 - first1 -> 0 <= r < last2 - first2 ->
    std_advance k (cartesian_product.Iterator first1 last1 first2 last2)
    = cartesian_product.Iterator_ (first1 + q) last1 (first2 + r) first2 last2.
Proof.
  induction k as [|k IH]; intros q r Hk Hq Hr.
  - assert (q = 0 /\ r = 0) as [-> ->] by nia.
    simpl. unfold cartesian_product.Iterator. by rewrite !Z.add_0_r.
  - rewrite std_advance_S. destruct (decide (r = 0)) as [->|Hpos].
    + rewrite (IH (q - 1) (last2 - first2 - 1)) by nia.
      rewrite cp_op_inc.
      destruct (Z.eqb_spec (first2 + (last2 - first2 - 1) + 1) last2); [|lia].
      destruct (Z.eqb_spec (first1 + (q - 1) + 1) last1); [lia|].
      f_equal; lia.
    + rewrite (IH q (r - 1)) by nia.
      rewrite cp_op_inc.
      destruct (Z.eqb_spec (first2 + (r - 1) + 1) last2); [lia|].
      f_equal; lia.
Qed.

(** X3: over two ranges of [n1 >= 1] and [n2 >= 1] elements whose
    product fits the word, the position [k] unit advances after
    [begin()], for [k < n1 * n2], has [pos1] at [first1 + k / n2] and
    [pos2] at [first2 + k mod n2], and differs from [end()]; the position
    [n1 * n2] advances after [begin()] equals [end()]. *)
Theorem cartesian_product_advance_div_mod (w : nat)
    (first1 last1 first2 last2 : iter) (k : nat) :
  let n1 := iter_distance first1 last1 in
  let n2 := iter_distance first2 last2 in
  let c := cartesian_product.make w first1 last1 first2 last2 in
  1 <= n1 -> 1 <= n2 -> n1 * n2 < modulus w ->
  (Z.of_nat k < n1 * n2 ->
   std_advance k (cartesian_product.begin c)
   = cartesian_product.Iterator_ (first1 + Z.of_nat k / n2) last1
       (first2 + Z.of_nat k mod n2) first2 last2 /\
   op_ne (std_advance k (cartesian_product.begin c))
         (cartesian_product.end_ c) = true) /\
  (Z.of_nat k = n1 * n2 ->
   op_eq (std_advance k (cartesian_product.begin c))
         (cartesian_product.end_ c) = true).
Proof.
  intros n1 n2 c Hn1 Hn2 Hfit. subst c n1 n2. unfold iter_distance in *.
  rewrite cp_begin_make, cp_end_make. unfold iter_distance.
  rewrite to_size_t_small by nia.
  destruct (Z.eqb_spec ((last1 - first1) * (last2 - first2)) 0); [nia|].
  split.
  - intros Hk.
    pose proof (Z.div_mod (Z.of_nat k) (last2 - first2) ltac:(lia)) as Hdm.
    pose proof (Z.mod_pos_bound (Z.of_nat k) (last2 - first2) ltac:(lia)) as Hr.
    assert (0 <= Z.of_nat k / (last2 - first2) < last1 - first1) as Hq.
    { split; [apply Z.div_pos; lia|]. apply Z.div_lt_upper_bound; lia. }
    rewrite (cp_advance_row_col first1 last1 first2 last2 k
               (Z.of_nat k / (last2 - first2))
               (Z.of_nat k mod (last2 - first2))) by lia.
    split; [done|]. apply not_false_iff_true. rewrite cp_op_ne. simpl. lia.
  - intros Hk. destruct k as [|k]; [nia|].
    rewrite std_advance_S.
    rewrite (cp_advance_row_col first1 last1 first2 last2 k
               (last1 - first1 - 1) (last2 - first2 - 1)) by nia.
    rewrite cp_op_inc.
    destruct (Z.eqb_spec (first2 + (last2 - first2 - 1) + 1) last2); [|lia].
    destruct (Z.eqb_spec (first1 + (last1 - first1 - 1) + 1) last1); [|lia].
    unfold op_eq. apply negb_true_iff, cp_op_ne. simpl. lia.
Qed.

Lemma cartesian_product_advance_div_mod_witness :
  1 <= iter_distance 0 3 /\ 1 <= iter_distance 0 2 /\
  std_advance 5 (cartesian_product.begin (cartesian_product.make 64 0 3 0 2))
  = cartesian_product.Iterator_ 2 3 1 0 2.
Proof.
  split; [vm_compute; done|]. split; [vm_compute; done|].
  destruct (cartesian_product_advance_div_mod 64 0 3 0 2 5) as [Hk _];
    [vm_compute; done..|].
  apply Hk. vm_compute. done.
Defined.

(** X4: for two ranges of [n1 >= 0] and [n2 >= 0] elements whose product
    fits the word, empty ranges included, [std::distance(begin(), end())]
    is the value [size()] returns. *)
Theorem cartesian_product_size_is_distance (w : nat)
    (first1 last1 first2 last2 : iter) (fuel : nat) :
  let n1 := iter_distance first1 last1 in
  let n2 := iter_distance first2 last2 in
  let c := cartesian_product.make w first1 last1 first2 last2 in
  0 <= n1 -> 0 <= n2 -> n1 * n2 < modulus w ->
  n1 * n2 < Z.of_nat fuel ->
  std_distance fuel (cartesian_product.begin c) (cartesian_product.end_ c)
  = Some (Z.to_nat (cartesian_product.size w c)).
Proof.
  intros n1 n2 c Hn1 Hn2 Hfit Hfuel. subst c.
  rewrite cp_size_make, std_distance_range_for.
  fold n1 n2. rewrite to_size_t_small by nia.
  destruct (decide (n1 * n2 = 0)) as [Hzero|Hsome].
  - destruct (cp_range_for_empty w first1 last1 first2 last2 fuel) as [_ Hrun].
    { fold n1 n2. rewrite Hzero. unfold to_size_t. apply Zmod_0_l. }
    rewrite Hrun by lia. by rewrite Hzero.
  - unfold n1, n2, iter_distance in *.
    rewrite cp_range_for.
    + simpl. rewrite length_cprod, !length_seqZ. f_equal. nia.
    + nia.
    + nia.
    + unfold iter_distance. rewrite to_size_t_small by nia. done.
    + rewrite length_cprod, !length_seqZ. nia.
Qed.

Lemma cartesian_product_size_is_distance_witness :
  0 <= iter_distance 0 3 /\ 0 <= iter_distance 0 2 /\
  std_distance 7 (cartesian_product.begin (cartesian_product.make 64 0 3 0 2))
                 (cartesian_product.end_ (cartesian_product.make 64 0 3 0 2))
  = Some (Z.to_nat (cartesian_product.size 64 (cartesian_product.make 64 0 3 0 2))).
Proof.
  split; [vm_compute; done|]. split; [vm_compute; done|].
  apply (cartesian_product_size_is_distance 64 0 3 0 2 7); vm_compute; done.
Defined.








(** X2: the pairs of one container are the triangle of its square
    without the trace. Over a container of [n >= 1] elements with n * n
    inside the word, the views an [internal_pairs] loop hands out are
    those of the [cartesian_product] loop over the container and itself
    whose first offset is below the second, in the same order. *)
Theorem internal_pairs_upper_triangle (w : nat) {A : Type} (vec : list A)
    (fuel : nat) :
  let n := vec_size vec in
  let c := cartesian_product.over w vec vec in
  1 <= n -> n * n < modulus w -> n * n < Z.of_nat fuel ->
  exists ps qs : list (Z * Z),
    range_for fuel (internal_pairs.begin vec) (internal_pairs.end_ vec)
    = Some ps /\
    range_for fuel (cartesian_product.begin c) (cartesian_product.end_ c)
    = Some qs /\
    ps = filter (fun p : Z * Z => p.1 < p.2) qs.
Proof.
  intros n c Hn Hfit Hfuel.
  exists (triangular n), (row_major n n). split; [|split; [|done]].
  - apply ip_range_for_ge1; [done|]. fold n.
    pose proof (pronic_even n). nia.
  - by apply cp_over_range_for.
Qed.

Lemma internal_pairs_upper_triangle_witness :
  1 <= vec_size [0; 1; 2; 3] /\
  exists ps qs : list (Z * Z),
    range_for 17 (internal_pairs.begin [0; 1; 2; 3])
                 (internal_pairs.end_ [0; 1; 2; 3]) = Some ps /\
    range_for 17
      (cartesian_product.begin (cartesian_product.over 64 [0; 1; 2; 3] [0; 1; 2; 3]))
      (cartesian_product.end_ (cartesian_product.over 64 [0; 1; 2; 3] [0; 1; 2; 3]))
    = Some qs /\
    ps = filter (fun p : Z * Z => p.1 < p.2) qs.
Proof.
  split; [vm_compute; done|].
  apply (internal_pairs_upper_triangle 64 [0; 1; 2; 3] 17); vm_compute; done.
Defined.

(** ** [cartesian_product] over parts of two containers *)

Section cartesian_subranges.
Context {A B : Type}.

Lemma load_middle {C : Type} (pre mid post : list C) (k : nat) (y : C) :
  mid !! k = Some y ->
  load (pre ++ mid ++ post) (vec_size pre + Z.of_nat k) = Some y.
Proof.
  intros Hy. unfold vec_size. rewrite load_app_r.
  by apply lookup_app_l_Some.
Qed.

Lemma load_middle_head {C : Type} (pre rest : list C) (x : C) :
  load (pre ++ x :: rest) (vec_size pre) = Some x.
Proof.
  unfold vec_size. rewrite load_nat. by rewrite list_lookup_middle.
Qed.

Lemma view_subranges (pre1 mid1 post1 : list A) (pre2 mid2 post2 : list B) :
  Forall2
    (fun p y =>
       cartesian_product.view (pre1 ++ mid1 ++ post1) (pre2 ++ mid2 ++ post2) p
       = Some y)
    (cprod (seqZ (vec_size pre1) (vec_size mid1))
           (seqZ (vec_size pre2) (vec_size mid2)))
    (cprod mid1 mid2).
Proof.
  revert pre1. induction mid1 as [|x mid1 IH]; intros pre1.
  - rewrite seqZ_nil by done. constructor.
  - rewrite seqZ_step by (unfold vec_size; simpl; lia).
    rewrite !cprod_cons. apply Forall2_app.
    + apply Forall2_fmap, Forall2_same_length_lookup. split.
      { rewrite length_seqZ. unfold vec_size. lia. }
      intros k b y [-> Hk]%lookup_seqZ Hy.
      unfold cartesian_product.view. simpl.
      rewrite load_middle_head. simpl.
      by rewrite (load_middle pre2 mid2 post2 k y).
    + specialize (IH (pre1 ++ [x])).
      rewrite <- app_assoc in IH. simpl in IH.
      replace (vec_size (pre1 ++ [x])) with (vec_size pre1 + 1) in IH
        by (unfold vec_size; rewrite length_app; simpl; lia).
      by replace (vec_size (x :: mid1) - 1) with (vec_size mid1)
        by (unfold vec_size; simpl; lia).
Qed.

(** X8: the adaptor built from iterators into the middle of two
    containers, [cartesian_product(v1.begin() + a, v1.begin() + b,
    v2.begin() + c, v2.begin() + d)], with both parts non-empty and the
    product of their lengths inside the word, hands out exactly the pairs
    of the elements of the first part with those of the second, second
    fastest; no element before or after the parts is read. *)
Theorem cartesian_product_subranges (w : nat)
    (pre1 mid1 post1 : list A) (pre2 mid2 post2 : list B) (fuel : nat) :
  let vec1 := pre1 ++ mid1 ++ post1 in
  let vec2 := pre2 ++ mid2 ++ post2 in
  let c := cartesian_product.make w
             (vec_size pre1) (vec_size pre1 + vec_size mid1)
             (vec_size pre2) (vec_size pre2 + vec_size mid2) in
  1 <= vec_size mid1 -> 1 <= vec_size mid2 ->
  vec_size mid1 * vec_size mid2 < modulus w ->
  vec_size mid1 * vec_size mid2 < Z.of_nat fuel ->
  range_for fuel (cartesian_product.begin c) (cartesian_product.end_ c)
  = Some (cprod (seqZ (vec_size pre1) (vec_size mid1))
                (seqZ (vec_size pre2) (vec_size mid2))) /\
  (range_for fuel (cartesian_product.begin c) (cartesian_product.end_ c)
     ≫= mapM (cartesian_product.view vec1 vec2))
  = Some (cprod mid1 mid2).
Proof.
  intros vec1 vec2 c H1 H2 Hfit Hfuel.
  assert (range_for fuel (cartesian_product.begin c) (cartesian_product.end_ c)
          = Some (cprod (seqZ (vec_size pre1) (vec_size mid1))
                        (seqZ (vec_size pre2) (vec_size mid2)))) as Hrun.
  { subst c. rewrite cp_range_for.
    - do 3 f_equal; lia.
    - lia.
    - lia.
    - unfold iter_distance. rewrite to_size_t_small by nia. nia.
    - rewrite length_cprod, !length_seqZ. nia. }
  split; [exact Hrun|]. rewrite Hrun. simpl.
  apply mapM_Some_2, view_subranges.
Qed.

End cartesian_subranges.

Lemma cartesian_product_subranges_witness :
  1 <= vec_size [1; 3] /\ 1 <= vec_size [20] /\
  (range_for 3 (cartesian_product.begin (cartesian_product.make 64 1 3 1 2))
               (cartesian_product.end_ (cartesian_product.make 64 1 3 1 2))
     ≫= mapM (cartesian_product.view [0; 1; 3; 7] [10; 20; 30]))
  = Some [(1, 20); (3, 20)].
Proof.
  split; [vm_compute; done|]. split; [vm_compute; done|].
  apply (cartesian_product_subranges 64 [0] [1; 3] [7] [10] [20] [30] 3);
    vm_compute; done.
Defined.



